(** * Observation encoders of ml-agents: shape arithmetic and running statistics

    A shallow embedding of [mlagents/trainers/torch/encoders.py].

    Conventions of the embedding.
    - Python [int]s are unbounded and are modelled by [Z].
    - The true division [/] of [conv_output_shape] is modelled on exact
      rationals ([Q]) and [math.floor] by [Qfloor].
    - Tensor entries are modelled by exact real numbers ([R]): rounding,
      infinities and NaN of the floating-point provider are outside the model.
      The step counter of the normalizer is a mathematical integer.
    - A batch of observations is a tensor of rank 2, one row per sample; the
      provider's broadcasting of its columns against the buffers, and the
      error it raises when they do not fit, are part of the model.
    - Exceptions are values of [exn]; a computation that may raise returns a
      [result].  Code that mutates the buffers of a [Normalizer] is written
      in the state-and-exception monad [NM]. *)

From Stdlib Require Import ZArith QArith Qround Reals Lra Lia List Bool Permutation.
Import ListNotations.

(** ** Exceptions and results *)

Module Py.

(** The exceptions that appear in the development.  [ZeroDivisionError] is
    raised by Python's [/]; [RuntimeError] is what the tensor provider raises
    on ill-shaped operands.  [ConfigurationError] and [ShapeMismatchError] are
    the error classes named by the specification; no statement of the source
    raises them. *)
Inductive exn : Type :=
| ZeroDivisionError
| RuntimeError
| ConfigurationError
| ShapeMismatchError.

Inductive result (A : Type) : Type :=
| Ok (a : A)
| Err (e : exn).
Arguments Ok {A} a.
Arguments Err {A} e.

Definition rbind {A B : Type} (r : result A) (k : A -> result B) : result B :=
  match r with
  | Ok a => k a
  | Err e => Err e
  end.

Definition is_ok {A : Type} (r : result A) : bool :=
  match r with Ok _ => true | Err _ => false end.

End Py.
Export Py.

Declare Scope result_scope.
Delimit Scope result_scope with result.
Notation "x <- c ;; k" := (rbind c (fun x => k))
  (at level 61, c at next level, right associativity) : result_scope.

(** ** ShapeMath: [conv_output_shape] and [pool_out_shape] *)

Module ShapeMath.
Local Open Scope Z_scope.

(** [kernel_size: Union[int, Tuple[int, int]]]. *)
Inductive KernelSize : Type :=
| KInt (k : Z)
| KTuple (k0 k1 : Z).

(** [if not isinstance(kernel_size, tuple): kernel_size = (int(k), int(k))]. *)
Definition kernel_pair (kernel_size : KernelSize) : Z * Z :=
  match kernel_size with
  | KInt k => (k, k)
  | KTuple k0 k1 => (k0, k1)
  end.

(** Python's [a / b] on two ints. *)
Definition truediv (a b : Z) : result Q :=
  if (b =? 0)%Z then Err ZeroDivisionError
  else Ok (inject_Z a / inject_Z b)%Q.

(** One axis of [conv_output_shape]:
    [floor(((size + (2 * padding) - (dilation * (k - 1)) - 1) / stride) + 1)]. *)
Definition conv_axis (size k stride padding dilation : Z) : result Z :=
  (q <- truediv (size + (2 * padding) - (dilation * (k - 1)) - 1)%Z stride ;;
   Ok (Qfloor (q + 1)%Q))%result.

Definition conv_output_shape (h_w : Z * Z) (kernel_size : KernelSize)
    (stride padding dilation : Z) : result (Z * Z) :=
  (let kernel_size := kernel_pair kernel_size in
   h <- conv_axis (fst h_w) (fst kernel_size) stride padding dilation ;;
   w <- conv_axis (snd h_w) (snd kernel_size) stride padding dilation ;;
   Ok (h, w))%result.

(** [pool_out_shape]: [(h_w[i] - kernel_size) // 2 + 1] on both axes; Python's
    [//] is floor division, which is [Z.div]. *)
Definition pool_out_shape (h_w : Z * Z) (kernel_size : Z) : Z * Z :=
  let height := ((fst h_w - kernel_size) / 2 + 1)%Z in
  let width := ((snd h_w - kernel_size) / 2 + 1)%Z in
  (height, width).


Definition poolOutputSize_axis (size kernel : Z) : Z :=
  (Qfloor (inject_Z (size - kernel) / inject_Z 2)%Q + 1)%Z.

End ShapeMath.
Export ShapeMath.

(** ** Layers and the visual encoders *)

Module Encoders.
Local Open Scope Z_scope.

(** The [torch.nn] layers the encoders are assembled from, kept as
    descriptors (their weights play no role here). *)
Inductive Layer : Type :=
| Conv2d (in_channels out_channels : Z) (kernel_size stride : Z * Z) (padding : Z)
| MaxPool2d (kernel_size stride : Z * Z)
| LeakyReLU
| Swish.

(** [class ResNetBlock]: its [layers] attribute. *)
Record ResNetBlock : Type := { layers : list Layer }.

Definition ResNetBlock_init (channel : Z) : ResNetBlock :=
  {| layers := [ Swish;
                 Conv2d channel channel (3, 3) (1, 1) 1;
                 Swish;
                 Conv2d channel channel (3, 3) (1, 1) 1 ] |}.

(** An entry of an [nn.Sequential]. *)
Inductive Module_ : Type :=
| Plain (l : Layer)
| Residual (b : ResNetBlock).

Record SimpleVisualEncoder : Type := {
  simple_h_size : Z;
  simple_final_flat : Z;
  simple_conv_layers : list Layer
}.

Definition SimpleVisualEncoder_init (height width initial_channels output_size : Z)
  : result SimpleVisualEncoder :=
  (conv_1_hw <- conv_output_shape (height, width) (KInt 8) 4 0 1 ;;
   conv_2_hw <- conv_output_shape conv_1_hw (KInt 4) 2 0 1 ;;
   Ok {| simple_h_size := output_size;
         simple_final_flat := (fst conv_2_hw * snd conv_2_hw * 32)%Z;
         simple_conv_layers :=
           [ Conv2d initial_channels 16 (8, 8) (4, 4) 0; LeakyReLU;
             Conv2d 16 32 (4, 4) (2, 2) 0; LeakyReLU ] |})%result.

Definition SimpleVisualEncoder_output_size (self : SimpleVisualEncoder) : Z :=
  simple_final_flat self.

Record NatureVisualEncoder : Type := {
  nature_h_size : Z;
  nature_final_flat : Z;
  nature_conv_layers : list Layer
}.

Definition NatureVisualEncoder_init (height width initial_channels output_size : Z)
  : result NatureVisualEncoder :=
  (conv_1_hw <- conv_output_shape (height, width) (KInt 8) 4 0 1 ;;
   conv_2_hw <- conv_output_shape conv_1_hw (KInt 4) 2 0 1 ;;
   conv_3_hw <- conv_output_shape conv_2_hw (KInt 3) 1 0 1 ;;
   Ok {| nature_h_size := output_size;
         nature_final_flat := (fst conv_3_hw * snd conv_3_hw * 64)%Z;
         nature_conv_layers :=
           [ Conv2d initial_channels 32 (8, 8) (4, 4) 0; LeakyReLU;
             Conv2d 32 64 (4, 4) (2, 2) 0; LeakyReLU;
             Conv2d 64 64 (3, 3) (1, 1) 0; LeakyReLU ] |})%result.

Definition NatureVisualEncoder_output_size (self : NatureVisualEncoder) : Z :=
  nature_final_flat self.

(** [ResNetVisualEncoder.__init__]: the locals threaded through the
    [for _, channel in enumerate(n_channels)] loop. *)
Record ResNetLoop : Type := {
  loop_layers : list Module_;
  loop_last_channel : Z;
  loop_height : Z;
  loop_width : Z
}.

Definition n_channels : list Z := [16; 32; 32]%Z.
Definition n_blocks : nat := 2.

(** One iteration of the loop body. *)
Definition resnet_stage (st : ResNetLoop) (channel : Z) : ResNetLoop :=
  let hw := pool_out_shape (loop_height st, loop_width st) 3 in
  {| loop_layers :=
       loop_layers st
         ++ [ Plain (Conv2d (loop_last_channel st) channel (3, 3) (1, 1) 1);
              Plain (MaxPool2d (3, 3) (2, 2)) ]
         ++ repeat (Residual (ResNetBlock_init channel)) n_blocks;
     loop_last_channel := channel;
     loop_height := fst hw;
     loop_width := snd hw |}.

Record ResNetVisualEncoder : Type := {
  resnet_output_size : Z;
  resnet_sequential : list Module_
}.

Definition ResNetVisualEncoder_init (height width initial_channels : Z)
  : ResNetVisualEncoder :=
  let st := fold_left resnet_stage n_channels
              {| loop_layers := []; loop_last_channel := initial_channels;
                 loop_height := height; loop_width := width |} in
  {| resnet_output_size := (last n_channels 0 * loop_height st * loop_width st)%Z;
     resnet_sequential := loop_layers st ++ [Plain Swish] |}.

Definition ResNetVisualEncoder_output_size (self : ResNetVisualEncoder) : Z :=
  resnet_output_size self.

End Encoders.
Export Encoders.

(** ** Shapes through the layers *)

Module TorchShapes.
Local Open Scope Z_scope.

(** [torch.Size]. *)
Definition Shape : Type := list Z.

(** Modelled from the spec: the tensor math provider (torch), which is not
    part of the repository.  Section 6 of the specification makes 2D
    convolution, pooling, the elementwise operations and broadcasting
    black-box operations of the provider, and section 7 has malformed input
    shapes "caught by the tensor math provider and propagated unchanged".
    Only the shape contract is modelled: a convolution accepts a batched
    [N, C, H, W] input whose channel count is the layer's [in_channels] and
    sizes each spatial axis by the formula of section 4.1 (dilation 1); every
    violation is the provider's [RuntimeError]. *)
Definition conv2d_axis (size k stride padding : Z) : result Z :=
  if stride <=? 0 then Err RuntimeError
  else
    let out := (size + 2 * padding - (k - 1) - 1) / stride + 1 in
    if out <=? 0 then Err RuntimeError else Ok out.

Definition conv2d_shape (in_channels out_channels : Z) (kernel_size stride : Z * Z)
    (padding : Z) (x : Shape) : result Shape :=
  match x with
  | [n; c; h; w] =>
      if c =? in_channels then
        (h' <- conv2d_axis h (fst kernel_size) (fst stride) padding ;;
         w' <- conv2d_axis w (snd kernel_size) (snd stride) padding ;;
         Ok [n; out_channels; h'; w'])%result
      else Err RuntimeError
  | _ => Err RuntimeError
  end.

Definition maxpool2d_shape (kernel_size stride : Z * Z) (x : Shape) : result Shape :=
  match x with
  | [n; c; h; w] =>
      (h' <- conv2d_axis h (fst kernel_size) (fst stride) 0 ;;
       w' <- conv2d_axis w (snd kernel_size) (snd stride) 0 ;;
       Ok [n; c; h'; w'])%result
  | _ => Err RuntimeError
  end.

(** Broadcasting of two shapes, aligned on their last axes; the arguments
    are the reversed shapes. *)
Fixpoint broadcast_rev (a b : Shape) : result Shape :=
  match a, b with
  | [], _ => Ok b
  | _, [] => Ok a
  | x :: a', y :: b' =>
      (r <- broadcast_rev a' b' ;;
       if x =? y then Ok (x :: r)
       else if x =? 1 then Ok (y :: r)
       else if y =? 1 then Ok (x :: r)
       else Err RuntimeError)%result
  end.

Definition broadcast_shapes (a b : Shape) : result Shape :=
  (r <- broadcast_rev (rev a) (rev b) ;; Ok (rev r))%result.

(** Shape of [layer(x)]; the activations are elementwise. *)
Definition layer_shape (l : Layer) (x : Shape) : result Shape :=
  match l with
  | Conv2d cin cout k s p => conv2d_shape cin cout k s p x
  | MaxPool2d k s => maxpool2d_shape k s x
  | LeakyReLU => Ok x
  | Swish => Ok x
  end.

(** The shape of [nn.Sequential] of the layers [ls] applied to [x]. *)
Fixpoint sequential_shape (ls : list Layer) (x : Shape) : result Shape :=
  match ls with
  | [] => Ok x
  | l :: ls' => (y <- layer_shape l x ;; sequential_shape ls' y)%result
  end.

(** [ResNetBlock.forward]: [input_tensor + self.layers(input_tensor)]. *)
Definition ResNetBlock_forward_shape (self : ResNetBlock) (input_tensor : Shape)
  : result Shape :=
  (out <- sequential_shape (layers self) input_tensor ;;
   broadcast_shapes input_tensor out)%result.

End TorchShapes.
Export TorchShapes.

(** ** Tensors of rank 1 and 2 over exact reals *)

Module Tensors.
Local Open Scope R_scope.

Definition Vec : Type := list R.

(** A batch: a tensor of shape [(length rows, ncols)].  The column count is
    kept apart so that an empty batch still has one. *)
Record Tensor2 : Type := { ncols : nat; rows : list Vec }.

Definition wf_tensor (t : Tensor2) : Prop :=
  Forall (fun r => length r = ncols t) (rows t).

(** [t.size()[0]]. *)
Definition size0 (t : Tensor2) : nat := length (rows t).

Fixpoint map2 {A B C : Type} (f : A -> B -> C) (a : list A) (b : list B) : list C :=
  match a, b with
  | x :: a', y :: b' => f x y :: map2 f a' b'
  | _, _ => []
  end.

(** Broadcasting of one axis: equal sizes, or one of them is 1. *)
Definition bdim (a b : nat) : result nat :=
  if (a =? b)%nat then Ok a
  else if (a =? 1)%nat then Ok b
  else if (b =? 1)%nat then Ok a
  else Err RuntimeError.

(** Expansion of an axis of size 1 (or already of size [c]) to size [c]. *)
Definition expand {A : Type} (dflt : A) (c : nat) (v : list A) : list A :=
  if (length v =? c)%nat then v else repeat (hd dflt v) c.

(** Elementwise binary operation on two rank-1 tensors. *)
Definition vec_op (f : R -> R -> R) (a b : Vec) : result Vec :=
  (c <- bdim (length a) (length b) ;;
   Ok (map2 f (expand 0 c a) (expand 0 c b)))%result.

(** Elementwise binary operation of a rank-2 tensor with a rank-1 tensor,
    which is broadcast along the first axis. *)
Definition t2_vec_op (f : R -> R -> R) (t : Tensor2) (v : Vec) : result Tensor2 :=
  (c <- bdim (ncols t) (length v) ;;
   Ok {| ncols := c;
         rows := map (fun r => map2 f (expand 0 c r) (expand 0 c v)) (rows t) |})%result.

(** Elementwise binary operation on two rank-2 tensors. *)
Definition t2_op (f : R -> R -> R) (a b : Tensor2) : result Tensor2 :=
  (n <- bdim (size0 a) (size0 b) ;;
   c <- bdim (ncols a) (ncols b) ;;
   Ok {| ncols := c;
         rows := map2 (fun r r' => map2 f (expand 0 c r) (expand 0 c r'))
                   (expand (repeat 0 (ncols a)) n (rows a))
                   (expand (repeat 0 (ncols b)) n (rows b)) |})%result.

(** Division of every entry by a scalar (a 0-dimensional integer tensor). *)
Definition t2_div_scalar (t : Tensor2) (k : Z) : Tensor2 :=
  {| ncols := ncols t; rows := map (map (fun x => x / IZR k)) (rows t) |}.

Definition vec_div_scalar (v : Vec) (k : Z) : Vec :=
  map (fun x => x / IZR k) v.

(** [t.sum(0)]: the sum of the rows. *)
Definition sum0 (t : Tensor2) : Vec :=
  fold_right (map2 Rplus) (repeat 0 (ncols t)) (rows t).

(** [torch.clamp(x, lo, hi)] on one entry. *)
Definition clamp (x lo hi : R) : R := Rmin (Rmax x lo) hi.

Definition t2_clamp (t : Tensor2) (lo hi : R) : Tensor2 :=
  {| ncols := ncols t; rows := map (map (fun x => clamp x lo hi)) (rows t) |}.

(** [dst.copy_(src)] on rank-1 buffers: [src] is broadcast to the shape of
    [dst], which never changes. *)
Definition copy_ (dst src : Vec) : result Vec :=
  if (length src =? length dst)%nat then Ok src
  else if (length src =? 1)%nat then Ok (repeat (hd 0 src) (length dst))
  else Err RuntimeError.

(** The batch with every row expanded to [c] columns: what broadcasting
    makes of a batch of one-column rows. *)
Definition expand_cols (c : nat) (t : Tensor2) : Tensor2 :=
  {| ncols := c; rows := map (expand 0 c) (rows t) |}.


Definition col (j : nat) (rs : list Vec) : list R := map (fun r => nth j r 0) rs.

Definition Rsum (l : list R) : R := fold_right Rplus 0 l.

Definition sq (x : R) : R := x * x.

(** [torch.cat((a, b), 0)]: the samples of [a] followed by those of [b]. *)
Definition cat0 (a b : Tensor2) : Tensor2 :=
  {| ncols := ncols a; rows := rows a ++ rows b |}.

End Tensors.
Export Tensors.

(** ** The normalizer (RunningStats) *)

Module Stats.
Local Open Scope R_scope.

(** The three registered buffers of [class Normalizer]. *)
Record Normalizer : Type := {
  normalization_steps : Z;
  running_mean : Vec;
  running_variance : Vec
}.

(** [Normalizer.__init__(vec_obs_size)]. *)
Definition Normalizer_init (vec_obs_size : nat) : Normalizer :=
  {| normalization_steps := 1;
     running_mean := repeat 0 vec_obs_size;
     running_variance := repeat 1 vec_obs_size |}.

(** Methods of a [Normalizer]: they read and overwrite the buffers of [self]
    and may raise; what was written before an exception stays written. *)
Definition NM (A : Type) : Type := Normalizer -> Normalizer * result A.

Definition ret {A : Type} (a : A) : NM A := fun self => (self, Ok a).

Definition bind {A B : Type} (m : NM A) (k : A -> NM B) : NM B :=
  fun self =>
    match m self with
    | (self', Ok a) => k a self'
    | (self', Err e) => (self', Err e)
    end.

Definition lift {A : Type} (r : result A) : NM A := fun self => (self, r).

Definition get_steps : NM Z := fun self => (self, Ok (normalization_steps self)).
Definition get_mean : NM Vec := fun self => (self, Ok (running_mean self)).
Definition get_variance : NM Vec := fun self => (self, Ok (running_variance self)).

(** [self.running_mean.data.copy_(src)] and its two siblings. *)
Definition copy_mean (src : Vec) : NM unit :=
  fun self =>
    match copy_ (running_mean self) src with
    | Ok v => ({| normalization_steps := normalization_steps self;
                  running_mean := v;
                  running_variance := running_variance self |}, Ok tt)
    | Err e => (self, Err e)
    end.

Definition copy_variance (src : Vec) : NM unit :=
  fun self =>
    match copy_ (running_variance self) src with
    | Ok v => ({| normalization_steps := normalization_steps self;
                  running_mean := running_mean self;
                  running_variance := v |}, Ok tt)
    | Err e => (self, Err e)
    end.

Definition copy_steps (src : Z) : NM unit :=
  fun self =>
    ({| normalization_steps := src;
        running_mean := running_mean self;
        running_variance := running_variance self |}, Ok tt).

End Stats.
Export Stats.

Declare Scope nm_scope.
Delimit Scope nm_scope with nm.
Notation "x <- c ;; k" := (bind c (fun x => k))
  (at level 61, c at next level, right associativity) : nm_scope.
Notation "c ;; k" := (bind c (fun _ => k))
  (at level 61, right associativity) : nm_scope.

Module NormalizerMethods.
Local Open Scope R_scope.

(** [Normalizer.forward]. *)
Definition forward (inputs : Tensor2) : NM Tensor2 :=
  (running_mean <- get_mean ;;
   running_variance <- get_variance ;;
   normalization_steps <- get_steps ;;
   centered <- lift (t2_vec_op Rminus inputs running_mean) ;;
   scaled <- lift (t2_vec_op Rdiv centered
                     (map sqrt (vec_div_scalar running_variance normalization_steps))) ;;
   let normalized_state := t2_clamp scaled (-5) 5 in
   ret normalized_state)%nm.

(** [Normalizer.update]. *)
Definition update (vector_input : Tensor2) : NM unit :=
  (let steps_increment := Z.of_nat (size0 vector_input) in
   normalization_steps <- get_steps ;;
   let total_new_steps := (normalization_steps + steps_increment)%Z in
   running_mean <- get_mean ;;
   input_to_old_mean <- lift (t2_vec_op Rminus vector_input running_mean) ;;
   new_mean <- lift (vec_op Rplus running_mean
                       (sum0 (t2_div_scalar input_to_old_mean total_new_steps))) ;;
   input_to_new_mean <- lift (t2_vec_op Rminus vector_input new_mean) ;;
   running_variance <- get_variance ;;
   product <- lift (t2_op Rmult input_to_new_mean input_to_old_mean) ;;
   new_variance <- lift (vec_op Rplus running_variance (sum0 product)) ;;
   copy_mean new_mean ;;
   copy_variance new_variance ;;
   copy_steps total_new_steps)%nm.

(** [Normalizer.copy_from]. *)
Definition copy_from (other_normalizer : Normalizer) : NM unit :=
  (copy_steps (normalization_steps other_normalizer) ;;
   copy_mean (running_mean other_normalizer) ;;
   copy_variance (running_variance other_normalizer))%nm.

(** The state after a call, whether it returned or raised. *)
Definition after {A : Type} (m : NM A) (self : Normalizer) : Normalizer := fst (m self).


(** The data-model invariant of section 3, with the lower bound [lo] of the
    accumulator entries left open: the specification asks for [lo = 0]. *)
Definition invariant_from (lo : R) (d : nat) (self : Normalizer) : Prop :=
  (1 <= normalization_steps self)%Z
  /\ length (running_mean self) = d
  /\ length (running_variance self) = d
  /\ Forall (fun v => lo <= v) (running_variance self).

Definition invariant : nat -> Normalizer -> Prop := invariant_from 0.

(** The derived variance [running_variance / normalization_steps], as
    [forward] computes it. *)
Definition variance (self : Normalizer) : Vec :=
  vec_div_scalar (running_variance self) (normalization_steps self).

(** Sequential calls of [update], one per chunk. *)
Definition feed (chunks : list Tensor2) (self : Normalizer) : Normalizer :=
  fold_left (fun st chunk => after (update chunk) st) chunks self.

(** All chunks concatenated along the first axis into one batch of [d]
    columns. *)
Definition cat_all (d : nat) (chunks : list Tensor2) : Tensor2 :=
  {| ncols := d; rows := concat (map rows chunks) |}.

(** The specification's update rule for one coordinate: [xs] is the column
    of the batch, [s], [m], [v] the old step count, mean and accumulator. *)
Definition newTotal (s : Z) (xs : list R) : Z := (s + Z.of_nat (length xs))%Z.

Definition newMean (s : Z) (m : R) (xs : list R) : R :=
  m + Rsum (map (fun x => (x - m) / IZR (newTotal s xs)) xs).

Definition newSumSqDev (s : Z) (m v : R) (xs : list R) : R :=
  v + Rsum (map (fun x => (x - newMean s m xs) * (x - m)) xs).

(** The two vectors [update] writes when the batch has one column per
    buffer entry, so that no axis is expanded. *)
Definition mean_after (total : Z) (mean : Vec) (rs : list Vec) : Vec :=
  map2 Rplus mean
    (fold_right (map2 Rplus) (repeat 0 (length mean))
       (map (fun r => map (fun x => x / IZR total) (map2 Rminus r mean)) rs)).

Definition variance_after (mean mean' var : Vec) (rs : list Vec) : Vec :=
  map2 Rplus var
    (fold_right (map2 Rplus) (repeat 0 (length mean))
       (map (fun r => map2 Rmult (map2 Rminus r mean') (map2 Rminus r mean)) rs)).

(** The state a returning [update] leaves on buffers of [d] entries. *)
Definition updated (d : nat) (self : Normalizer) (batch : Tensor2) : Normalizer :=
  let total := (normalization_steps self + Z.of_nat (size0 batch))%Z in
  let samples := rows (expand_cols d batch) in
  let mean' := mean_after total (running_mean self) samples in
  {| normalization_steps := total;
     running_mean := mean';
     running_variance :=
       variance_after (running_mean self) mean' (running_variance self) samples |}.

End NormalizerMethods.
Export NormalizerMethods.

(** ** The vector input (VectorInputAdapter) *)

Module VectorInputs.

(** [class VectorInput]: [self.normalizer: Optional[Normalizer]]. *)
Record VectorInput : Type := { normalizer : option Normalizer }.

(** [VectorInput.__init__(input_size, normalize)]. *)
Definition VectorInput_init (input_size : nat) (normalize : bool) : VectorInput :=
  {| normalizer := if normalize then Some (Normalizer_init input_size) else None |}.

(** Methods of a [VectorInput]: the state is the adapter, whose normalizer
    is written in place. *)
Definition VM (A : Type) : Type := VectorInput -> VectorInput * result A.

(** A method of the owned normalizer, called on it in place. *)
Definition on_normalizer {A : Type} (nz : Normalizer) (m : NM A) : VectorInput * result A :=
  ({| normalizer := Some (fst (m nz)) |}, snd (m nz)).

(** [VectorInput.forward]. *)
Definition VectorInput_forward (inputs : Tensor2) : VM Tensor2 :=
  fun self =>
    match normalizer self with
    | Some nz => on_normalizer nz (forward inputs)
    | None => (self, Ok inputs)
    end.

(** [VectorInput.copy_normalization]. *)
Definition copy_normalization (other_input : VectorInput) : VM unit :=
  fun self =>
    match normalizer self, normalizer other_input with
    | Some nz, Some other => on_normalizer nz (copy_from other)
    | _, _ => (self, Ok tt)
    end.

(** [VectorInput.update_normalization]. *)
Definition update_normalization (inputs : Tensor2) : VM unit :=
  fun self =>
    match normalizer self with
    | Some nz => on_normalizer nz (update inputs)
    | None => (self, Ok tt)
    end.

(** A call on a vector input from outside. *)
Inductive VectorInputCall : Type :=
| CallForward (inputs : Tensor2)
| CallCopyNormalization (other_input : VectorInput)
| CallUpdateNormalization (inputs : Tensor2).

(** The adapter after a call, whether it returned or raised. *)
Definition call_state (c : VectorInputCall) (self : VectorInput) : VectorInput :=
  match c with
  | CallForward inputs => fst (VectorInput_forward inputs self)
  | CallCopyNormalization other => fst (copy_normalization other self)
  | CallUpdateNormalization inputs => fst (update_normalization inputs self)
  end.

(** The adapter after a sequence of calls. *)
Definition run_calls (calls : list VectorInputCall) (self : VectorInput) : VectorInput :=
  fold_left (fun st c => call_state c st) calls self.


End VectorInputs.
Export VectorInputs.

(** ** Shapes through the [forward] of the visual encoders *)

Module EncoderForward.
Local Open Scope Z_scope.

(** Number of elements of a tensor of the given shape. *)
Definition numel (x : Shape) : Z := fold_right Z.mul 1 x.


(** Modelled from the spec: [x.view(batch_size, -1)], the inferred dimension
    being the second one. *)
Definition view_batch (x : Shape) (batch_size : Z) : result Shape :=
  if batch_size <=? 0 then Err RuntimeError
  else if numel x mod batch_size =? 0 then Ok [batch_size; numel x / batch_size]
  else Err RuntimeError.



(** Shape of one entry of the sequence of a ResNetVisualEncoder. *)
Definition module_shape (m : Module_) (x : Shape) : result Shape :=
  match m with
  | Plain l => layer_shape l x
  | Residual b => ResNetBlock_forward_shape b x
  end.

Fixpoint modules_shape (ms : list Module_) (x : Shape) : result Shape :=
  match ms with
  | [] => Ok x
  | m :: ms' => (y <- module_shape m x ;; modules_shape ms' y)%result
  end.

(** What a call can do: return, raise one of [exn], or raise Python's
    IndexError, which [visual_obs.shape[0]] does on a tensor of rank 0. *)
Inductive outcome (A : Type) : Type :=
| Returns (a : A)
| Raises (e : exn)
| RaisesIndexError.
Arguments Returns {A} a.
Arguments Raises {A} e.
Arguments RaisesIndexError {A}.

(** [ResNetVisualEncoder.forward]; the final [torch.relu] is elementwise. *)
Definition ResNetVisualEncoder_forward_shape (self : ResNetVisualEncoder)
    (visual_obs : Shape) : outcome Shape :=
  match visual_obs with
  | [] => RaisesIndexError
  | batch_size :: _ =>
      match modules_shape (resnet_sequential self) visual_obs with
      | Err e => Raises e
      | Ok hidden =>
          match view_batch hidden batch_size with
          | Ok before_out => Returns before_out
          | Err e => Raises e
          end
      end
  end.

End EncoderForward.
Export EncoderForward.

(** * Properties *)

(** ** List and broadcasting lemmas *)

Section TensorLemmas.
Local Open Scope R_scope.

Lemma bdim_same (d : nat) : bdim d d = Ok d.
Proof. unfold bdim. now rewrite Nat.eqb_refl. Qed.

Lemma expand_same {A : Type} (dflt : A) (c : nat) (v : list A) :
  length v = c -> expand dflt c v = v.
Proof. intros H. unfold expand. now rewrite H, Nat.eqb_refl. Qed.

Lemma map2_length {A B C : Type} (f : A -> B -> C) (a : list A) (b : list B) :
  length (map2 f a b) = Nat.min (length a) (length b).
Proof.
  revert b; induction a as [|x a IH]; intros [|y b]; simpl; auto.
Qed.

Lemma map2_length_same {A B C : Type} (f : A -> B -> C) a b (d : nat) :
  length a = d -> length b = d -> length (map2 f a b) = d.
Proof. intros Ha Hb. rewrite map2_length, Ha, Hb. apply Nat.min_id. Qed.

Lemma map2_nth {A B C : Type} (f : A -> B -> C) a b da db dc (j : nat) :
  (j < length a)%nat -> (j < length b)%nat ->
  nth j (map2 f a b) dc = f (nth j a da) (nth j b db).
Proof.
  revert b j; induction a as [|x a IH]; intros [|y b] [|j]; simpl; intros; try lia; auto.
  apply IH; lia.
Qed.

Lemma nth_map_lt {A B : Type} (g : A -> B) (l : list A) (da : A) (db : B) (j : nat) :
  (j < length l)%nat -> nth j (map g l) db = g (nth j l da).
Proof.
  intros Hj. rewrite (nth_indep _ db (g da)) by now rewrite length_map.
  apply map_nth.
Qed.

Lemma sum_rows_length (c : nat) (rs : list Vec) :
  Forall (fun r => length r = c) rs ->
  length (fold_right (map2 Rplus) (repeat 0 c) rs) = c.
Proof.
  induction 1 as [|r rs Hr _ IH]; simpl.
  - apply repeat_length.
  - now apply map2_length_same.
Qed.

Lemma sum_rows_nth (c : nat) (rs : list Vec) (j : nat) :
  Forall (fun r => length r = c) rs -> (j < c)%nat ->
  nth j (fold_right (map2 Rplus) (repeat 0 c) rs) 0 = Rsum (col j rs).
Proof.
  intros H Hj. induction H as [|r rs Hr Hrs IH]; simpl.
  - apply nth_repeat.
  - rewrite (map2_nth Rplus r _ 0 0 0 j).
    + now rewrite IH.
    + lia.
    + rewrite (sum_rows_length c rs Hrs). exact Hj.
Qed.

Lemma Rsum_app (a b : list R) : Rsum (a ++ b) = Rsum a + Rsum b.
Proof. induction a as [|x a IH]; simpl; [lra | rewrite IH; lra]. Qed.

Lemma col_length (j : nat) (rs : list Vec) : length (col j rs) = length rs.
Proof. apply length_map. Qed.

Lemma col_app (j : nat) (a b : list Vec) : col j (a ++ b) = col j a ++ col j b.
Proof. apply map_app. Qed.

End TensorLemmas.

Section UpdateRun.
Local Open Scope R_scope.

Lemma map2_map_map {A B C D : Type} (f : B -> C -> D) (g : A -> B) (h : A -> C) l :
  map2 f (map g l) (map h l) = map (fun x => f (g x) (h x)) l.
Proof. induction l as [|x l IH]; simpl; [reflexivity | now rewrite IH]. Qed.

Lemma col_map {A : Type} (j : nat) (g : A -> Vec) (l : list A) :
  col j (map g l) = map (fun r => nth j (g r) 0) l.
Proof. unfold col. apply map_map. Qed.

Lemma t2_vec_op_same f (t : Tensor2) (v : Vec) :
  wf_tensor t -> length v = ncols t ->
  t2_vec_op f t v
  = Ok {| ncols := ncols t; rows := map (fun r => map2 f r v) (rows t) |}.
Proof.
  intros Hwf Hv. unfold t2_vec_op. rewrite Hv, bdim_same. simpl.
  do 2 f_equal. apply map_ext_in. intros r Hr.
  unfold wf_tensor in Hwf. rewrite Forall_forall in Hwf.
  now rewrite (expand_same 0 _ r (Hwf r Hr)), (expand_same 0 _ v Hv).
Qed.

Lemma bdim_one (c : nat) : bdim 1 c = Ok c.
Proof. unfold bdim. destruct c as [|[|c]]; reflexivity. Qed.

Lemma expand_length {A : Type} (dflt : A) (c : nat) (v : list A) :
  length v = c \/ length v = 1%nat -> length (expand dflt c v) = c.
Proof.
  intros H. unfold expand. destruct (Nat.eqb_spec (length v) c); [assumption|].
  apply repeat_length.
Qed.

Lemma expand_cols_wf (c : nat) (t : Tensor2) :
  wf_tensor t -> ncols t = c \/ ncols t = 1%nat -> wf_tensor (expand_cols c t).
Proof.
  intros Hwf Hc. unfold wf_tensor, expand_cols in *. simpl.
  rewrite Forall_forall in *. intros r Hr. apply in_map_iff in Hr.
  destruct Hr as [r0 [<- Hr0]]. apply expand_length.
  rewrite (Hwf r0 Hr0). exact Hc.
Qed.

Lemma t2_vec_op_bcast f (t : Tensor2) (v : Vec) :
  wf_tensor t -> ncols t = length v \/ ncols t = 1%nat ->
  t2_vec_op f t v
  = Ok {| ncols := length v;
          rows := map (fun r => map2 f r v) (rows (expand_cols (length v) t)) |}.
Proof.
  intros Hwf Hc. unfold t2_vec_op.
  assert (Hb : bdim (ncols t) (length v) = Ok (length v))
    by (destruct Hc as [-> | ->]; [apply bdim_same | apply bdim_one]).
  rewrite Hb. simpl. rewrite map_map. do 2 f_equal.
  apply map_ext. intros r. now rewrite (expand_same 0 _ v).
Qed.

Lemma vec_op_same f (a b : Vec) :
  length a = length b -> vec_op f a b = Ok (map2 f a b).
Proof.
  intros H. unfold vec_op. rewrite H, bdim_same. simpl.
  now rewrite !expand_same by auto.
Qed.

Lemma copy_same (dst src : Vec) : length src = length dst -> copy_ dst src = Ok src.
Proof. intros H. unfold copy_. now rewrite H, Nat.eqb_refl. Qed.

Lemma t2_op_map_same f (c : nat) (g h : Vec -> Vec) (rs : list Vec) :
  (forall r, In r rs -> length (g r) = c) ->
  (forall r, In r rs -> length (h r) = c) ->
  t2_op f {| ncols := c; rows := map g rs |} {| ncols := c; rows := map h rs |}
  = Ok {| ncols := c; rows := map (fun r => map2 f (g r) (h r)) rs |}.
Proof.
  intros Hg Hh. unfold t2_op, size0. simpl.
  rewrite !length_map, !bdim_same. simpl.
  rewrite !expand_same by now rewrite length_map.
  rewrite map2_map_map. do 2 f_equal.
  apply map_ext_in. intros r Hr.
  now rewrite !expand_same by auto.
Qed.

End UpdateRun.

Section UpdateSpec.
Local Open Scope R_scope.

Variable d : nat.
Variable self : Normalizer.
Variable batch : Tensor2.
Hypothesis Hmean : length (running_mean self) = d.
Hypothesis Hvar : length (running_variance self) = d.
Hypothesis Hcols : ncols batch = d \/ ncols batch = 1%nat.
Hypothesis Hwf : wf_tensor batch.

Lemma samples_length (r : Vec) : In r (rows (expand_cols d batch)) -> length r = d.
Proof.
  intros Hr. pose proof (expand_cols_wf d batch Hwf Hcols) as H.
  unfold wf_tensor in H. rewrite Forall_forall in H. now apply H.
Qed.

Lemma mean_after_length : length (running_mean (updated d self batch)) = d.
Proof.
  unfold updated, mean_after. cbn [running_mean].
  apply map2_length_same; [exact Hmean|].
  rewrite Hmean. apply sum_rows_length.
  rewrite Forall_forall. intros r Hr. apply in_map_iff in Hr.
  destruct Hr as [r0 [<- Hr0]]. rewrite length_map.
  apply map2_length_same; [now apply samples_length | exact Hmean].
Qed.

Lemma variance_after_length :
  length (running_variance (updated d self batch)) = d.
Proof.
  pose proof mean_after_length as Hm'.
  unfold updated in *. cbn [running_mean running_variance] in *.
  unfold variance_after. apply map2_length_same; [exact Hvar|].
  rewrite Hmean. apply sum_rows_length.
  rewrite Forall_forall. intros r Hr. apply in_map_iff in Hr.
  destruct Hr as [r0 [<- Hr0]].
  apply map2_length_same; apply map2_length_same;
    auto using samples_length.
Qed.

Lemma update_run :
  update batch self = (updated d self batch, Ok tt).
Proof.
  pose proof mean_after_length as Hm'.
  pose proof variance_after_length as Hv'.
  unfold updated in *. cbn [running_mean running_variance] in Hm', Hv'.
  unfold update, bind, lift, get_steps, get_mean, get_variance.
  set (total := (normalization_steps self + Z.of_nat (size0 batch))%Z) in *.
  rewrite (t2_vec_op_bcast Rminus batch (running_mean self)) by (auto; congruence).
  unfold sum0, t2_div_scalar. rewrite Hmean.
  set (rs := rows (expand_cols d batch)) in *.
  simpl ncols. simpl rows. rewrite map_map.
  rewrite vec_op_same.
  2:{ rewrite Hmean. symmetry. apply sum_rows_length.
      rewrite Forall_forall. intros r Hr. apply in_map_iff in Hr.
      destruct Hr as [r0 [<- Hr0]]. rewrite length_map.
      apply map2_length_same; [now apply samples_length | exact Hmean]. }
  assert (Em : map2 Rplus (running_mean self)
                 (fold_right (map2 Rplus) (repeat 0 d)
                    (map (fun r => map (fun x => x / IZR total)
                                     (map2 Rminus r (running_mean self))) rs))
               = mean_after total (running_mean self) rs)
    by (unfold mean_after; now rewrite Hmean).
  rewrite Em.
  set (m' := mean_after total (running_mean self) rs) in *.
  rewrite (t2_vec_op_bcast Rminus batch m') by (auto; congruence).
  rewrite Hm'. fold rs.
  rewrite (t2_op_map_same Rmult d (fun r => map2 Rminus r m')
             (fun r => map2 Rminus r (running_mean self))).
  2:{ intros r Hr. apply map2_length_same; auto using samples_length. }
  2:{ intros r Hr. apply map2_length_same; auto using samples_length. }
  simpl ncols. simpl rows.
  rewrite vec_op_same.
  2:{ rewrite Hvar. symmetry. apply sum_rows_length.
      rewrite Forall_forall. intros r Hr. apply in_map_iff in Hr.
      destruct Hr as [r0 [<- Hr0]].
      apply map2_length_same; apply map2_length_same; auto using samples_length. }
  assert (Ev : map2 Rplus (running_variance self)
                 (fold_right (map2 Rplus) (repeat 0 d)
                    (map (fun r : Vec => map2 Rmult (map2 Rminus r m')
                                     (map2 Rminus r (running_mean self))) rs))
               = variance_after (running_mean self) m' (running_variance self) rs)
    by (unfold variance_after; now rewrite Hmean).
  unfold copy_mean. rewrite copy_same by congruence.
  unfold copy_variance. simpl running_variance.
  rewrite copy_same by (rewrite Ev; congruence).
  unfold copy_steps. simpl. now rewrite Ev.
Qed.

End UpdateSpec.

Section Pointwise.
Local Open Scope R_scope.

Lemma mean_after_nth (total : Z) (mean : Vec) (rs : list Vec) (j : nat) :
  Forall (fun r => length r = length mean) rs -> (j < length mean)%nat ->
  nth j (mean_after total mean rs) 0
  = nth j mean 0 + Rsum (map (fun x => (x - nth j mean 0) / IZR total) (col j rs)).
Proof.
  intros Hrs Hj. unfold mean_after.
  assert (Hlen : Forall (fun r => length r = length mean)
                   (map (fun r => map (fun x => x / IZR total) (map2 Rminus r mean)) rs)).
  { rewrite Forall_forall in *. intros r Hr. apply in_map_iff in Hr.
    destruct Hr as [r0 [<- Hr0]]. rewrite length_map.
    apply map2_length_same; auto. }
  rewrite (map2_nth Rplus _ _ 0 0 0 j); [| exact Hj | now rewrite sum_rows_length].
  rewrite sum_rows_nth by assumption.
  f_equal. rewrite col_map. unfold col. rewrite map_map. f_equal.
  apply map_ext_in. intros r Hr. rewrite Forall_forall in Hrs.
  rewrite (nth_map_lt (fun x => x / IZR total) _ 0 0).
  - rewrite (map2_nth Rminus r mean 0 0 0 j); auto. rewrite Hrs; auto.
  - rewrite map2_length_same with (d := length mean); auto.
Qed.

Lemma variance_after_nth (mean mean' var : Vec) (rs : list Vec) (j : nat) :
  Forall (fun r => length r = length mean) rs ->
  length mean' = length mean -> length var = length mean -> (j < length mean)%nat ->
  nth j (variance_after mean mean' var rs) 0
  = nth j var 0
    + Rsum (map (fun x => (x - nth j mean' 0) * (x - nth j mean 0)) (col j rs)).
Proof.
  intros Hrs Hm' Hv Hj. unfold variance_after.
  assert (Hlen : Forall (fun r => length r = length mean)
                   (map (fun r => map2 Rmult (map2 Rminus r mean') (map2 Rminus r mean)) rs)).
  { rewrite Forall_forall in *. intros r Hr. apply in_map_iff in Hr.
    destruct Hr as [r0 [<- Hr0]].
    apply map2_length_same; apply map2_length_same; auto. }
  rewrite (map2_nth Rplus _ _ 0 0 0 j); [| lia | now rewrite sum_rows_length].
  rewrite sum_rows_nth by assumption.
  f_equal. rewrite col_map. unfold col. rewrite map_map. f_equal.
  apply map_ext_in. intros r Hr. rewrite Forall_forall in Hrs.
  specialize (Hrs r Hr).
  rewrite (map2_nth Rmult _ _ 0 0 0 j).
  - rewrite (map2_nth Rminus r mean' 0 0 0 j) by lia.
    rewrite (map2_nth Rminus r mean 0 0 0 j) by lia. reflexivity.
  - rewrite map2_length_same with (d := length mean); auto.
  - rewrite map2_length_same with (d := length mean); auto.
Qed.

End Pointwise.

(** ** The update rule on one coordinate *)

Section Welford.
Local Open Scope R_scope.

Lemma Rsum_shift_div (m k : R) (xs : list R) :
  Rsum (map (fun x => (x - m) / k) xs) = (Rsum xs - INR (length xs) * m) / k.
Proof.
  induction xs as [|x xs IH].
  - simpl. unfold Rdiv. ring.
  - cbn [map Rsum fold_right length]. fold (Rsum (map (fun x => (x - m) / k) xs)).
    fold (Rsum xs). rewrite IH, S_INR. unfold Rdiv. ring.
Qed.

Lemma Rsum_shift_mult (a b : R) (xs : list R) :
  Rsum (map (fun x => (x - a) * (x - b)) xs)
  = Rsum (map sq xs) - (a + b) * Rsum xs + INR (length xs) * a * b.
Proof.
  induction xs as [|x xs IH].
  - simpl. ring.
  - cbn [map Rsum fold_right length].
    fold (Rsum (map (fun x => (x - a) * (x - b)) xs)).
    fold (Rsum (map sq xs)). fold (Rsum xs).
    rewrite IH, S_INR. unfold sq. ring.
Qed.

Lemma IZR_newTotal (s : Z) (xs : list R) :
  IZR (newTotal s xs) = IZR s + INR (length xs).
Proof. unfold newTotal. now rewrite plus_IZR, <- INR_IZR_INZ. Qed.

Lemma newTotal_pos (s : Z) (xs : list R) : (1 <= s)%Z -> 0 < IZR (newTotal s xs).
Proof.
  intros Hs. rewrite IZR_newTotal.
  apply IZR_le in Hs. pose proof (pos_INR (length xs)). lra.
Qed.

Lemma newTotal_app (s : Z) (xs ys : list R) :
  newTotal (newTotal s xs) ys = newTotal s (xs ++ ys).
Proof. unfold newTotal. rewrite length_app. lia. Qed.

(** The weighted mean is additive in the samples. *)
Lemma newMean_weighted (s : Z) (m : R) (xs : list R) :
  IZR (newTotal s xs) <> 0 ->
  IZR (newTotal s xs) * newMean s m xs = IZR s * m + Rsum xs.
Proof.
  intros HN. unfold newMean. rewrite Rsum_shift_div.
  pose proof (IZR_newTotal s xs) as E.
  set (N := IZR (newTotal s xs)) in *.
  replace (INR (length xs)) with (N - IZR s) by lra.
  field. exact HN.
Qed.

(** So is the accumulator once the squared mean is added back. *)
Lemma newSumSqDev_weighted (s : Z) (m v : R) (xs : list R) :
  IZR (newTotal s xs) <> 0 ->
  newSumSqDev s m v xs + IZR (newTotal s xs) * sq (newMean s m xs)
  = v + IZR s * sq m + Rsum (map sq xs).
Proof.
  intros HN. pose proof (newMean_weighted s m xs HN) as Hw.
  unfold newSumSqDev. rewrite Rsum_shift_mult.
  pose proof (IZR_newTotal s xs) as E.
  set (N := IZR (newTotal s xs)) in *.
  set (m' := newMean s m xs) in *.
  replace (Rsum xs) with (N * m' - IZR s * m) by lra.
  replace (INR (length xs)) with (N - IZR s) by lra.
  unfold sq. ring.
Qed.

Lemma newMean_app (s : Z) (m : R) (xs ys : list R) :
  (1 <= s)%Z ->
  newMean (newTotal s xs) (newMean s m xs) ys = newMean s m (xs ++ ys).
Proof.
  intros Hs.
  pose proof (newTotal_pos s xs Hs) as H1.
  pose proof (newTotal_pos s (xs ++ ys) Hs) as H2.
  assert (H3 : IZR (newTotal (newTotal s xs) ys) <> 0)
    by (rewrite newTotal_app; lra).
  pose proof (newMean_weighted (newTotal s xs) (newMean s m xs) ys H3) as Ea.
  pose proof (newMean_weighted s m xs ltac:(lra)) as Ew.
  pose proof (newMean_weighted s m (xs ++ ys) ltac:(lra)) as Eb.
  rewrite Rsum_app in Eb. rewrite newTotal_app in Ea.
  apply (Rmult_eq_reg_l (IZR (newTotal s (xs ++ ys)))); lra.
Qed.

Lemma newSumSqDev_app (s : Z) (m v : R) (xs ys : list R) :
  (1 <= s)%Z ->
  newSumSqDev (newTotal s xs) (newMean s m xs) (newSumSqDev s m v xs) ys
  = newSumSqDev s m v (xs ++ ys).
Proof.
  intros Hs.
  pose proof (newTotal_pos s xs Hs) as H1.
  pose proof (newTotal_pos s (xs ++ ys) Hs) as H2.
  assert (H3 : IZR (newTotal (newTotal s xs) ys) <> 0)
    by (rewrite newTotal_app; lra).
  pose proof (newSumSqDev_weighted (newTotal s xs) (newMean s m xs)
                (newSumSqDev s m v xs) ys H3) as Ea.
  pose proof (newSumSqDev_weighted s m v xs ltac:(lra)) as Eb.
  pose proof (newSumSqDev_weighted s m v (xs ++ ys) ltac:(lra)) as Ec.
  rewrite map_app, Rsum_app in Ec.
  rewrite newMean_app, newTotal_app in Ea by assumption.
  lra.
Qed.

(** Cauchy-Schwarz against the all-ones vector. *)
Lemma Rsum_sq_shift_nonneg (a : R) (ds : list R) :
  0 <= INR (length ds) * sq a - 2 * a * Rsum ds + Rsum (map sq ds).
Proof.
  induction ds as [|x ds IH].
  - simpl. lra.
  - cbn [map Rsum fold_right length]. fold (Rsum (map sq ds)). fold (Rsum ds).
    rewrite S_INR. unfold sq in *.
    pose proof (Rle_0_sqr (a - x)) as Hsq. unfold Rsqr in Hsq. nra.
Qed.

Lemma Rsum_sq_bound (ds : list R) :
  sq (Rsum ds) <= INR (length ds) * Rsum (map sq ds).
Proof.
  induction ds as [|x ds IH].
  - simpl. unfold sq. lra.
  - cbn [map Rsum fold_right length]. fold (Rsum (map sq ds)). fold (Rsum ds).
    rewrite S_INR. pose proof (Rsum_sq_shift_nonneg x ds) as Hx.
    unfold sq in *. nra.
Qed.

Lemma Rsum_sq_nonneg (ds : list R) : 0 <= Rsum (map sq ds).
Proof.
  induction ds as [|x ds IH]; simpl; [lra|].
  fold (Rsum (map sq ds)). unfold sq at 1. nra.
Qed.

Lemma Rsum_shift (m : R) (xs : list R) :
  Rsum (map (fun x => x - m) xs) = Rsum xs - INR (length xs) * m.
Proof.
  induction xs as [|x xs IH].
  - simpl. ring.
  - cbn [map Rsum fold_right length]. fold (Rsum xs).
    fold (Rsum (map (fun x => x - m) xs)). rewrite IH, S_INR. ring.
Qed.

(** The quantity [update] adds to an accumulator entry is nonnegative. *)
Lemma increment_nonneg (s : Z) (m : R) (xs : list R) :
  (1 <= s)%Z ->
  0 <= Rsum (map (fun x => (x - newMean s m xs) * (x - m)) xs).
Proof.
  intros Hs.
  pose proof (newTotal_pos s xs Hs) as HN.
  pose proof (IZR_newTotal s xs) as E.
  apply IZR_le in Hs.
  set (ds := map (fun x => x - m) xs).
  set (N := IZR (newTotal s xs)) in *.
  assert (Hmean : newMean s m xs = m + Rsum ds / N).
  { unfold newMean, ds. fold N. now rewrite Rsum_shift_div, Rsum_shift. }
  assert (Hmap : map (fun x => (x - newMean s m xs) * (x - m)) xs
                 = map (fun t => (t - Rsum ds / N) * (t - 0)) ds).
  { unfold ds at 2. rewrite map_map. apply map_ext. intros x. rewrite Hmean. ring. }
  rewrite Hmap, Rsum_shift_mult.
  pose proof (Rsum_sq_bound ds) as Hcs.
  pose proof (Rsum_sq_nonneg ds) as Hq.
  assert (Hlen : INR (length ds) = INR (length xs))
    by (unfold ds; now rewrite length_map).
  rewrite Hlen in *.
  set (D := Rsum ds) in *. set (Q := Rsum (map sq ds)) in *.
  replace (Q - (D / N + 0) * D + INR (length xs) * (D / N) * 0)
    with ((N * Q - sq D) / N) by (unfold sq; field; lra).
  unfold Rdiv. apply Rmult_le_pos.
  - pose proof (pos_INR (length xs)). unfold sq in *. nra.
  - left. now apply Rinv_0_lt_compat.
Qed.

End Welford.

(** ** Calls of [update] that raise *)

Section UpdateRaises.
Local Open Scope R_scope.

Lemma expand_length_any {A : Type} (dflt : A) (c : nat) (v : list A) :
  length (expand dflt c v) = c.
Proof.
  unfold expand. destruct (Nat.eqb_spec (length v) c); [assumption|].
  apply repeat_length.
Qed.

Lemma t2_vec_op_ok f (t : Tensor2) (v : Vec) (c : nat) :
  bdim (ncols t) (length v) = Ok c ->
  exists rs, t2_vec_op f t v = Ok {| ncols := c; rows := rs |}
             /\ length rs = size0 t
             /\ Forall (fun r => length r = c) rs.
Proof.
  intros Hb. unfold t2_vec_op. rewrite Hb. simpl.
  eexists. split; [reflexivity|]. split; [apply length_map|].
  rewrite Forall_forall. intros r Hr. apply in_map_iff in Hr.
  destruct Hr as [r0 [<- _]]. apply map2_length_same; apply expand_length_any.
Qed.

Lemma vec_op_ok f (a b : Vec) (c : nat) :
  bdim (length a) (length b) = Ok c ->
  exists w, vec_op f a b = Ok w /\ length w = c.
Proof.
  intros Hb. unfold vec_op. rewrite Hb. simpl.
  eexists. split; [reflexivity|]. apply map2_length_same; apply expand_length_any.
Qed.

Lemma t2_op_ok f (c : nat) (ra rb : list Vec) :
  length ra = length rb ->
  exists rs, t2_op f {| ncols := c; rows := ra |} {| ncols := c; rows := rb |}
             = Ok {| ncols := c; rows := rs |}
             /\ Forall (fun r => length r = c) rs.
Proof.
  intros Hn. unfold t2_op, size0. simpl. rewrite Hn, !bdim_same. simpl.
  eexists. split; [reflexivity|].
  rewrite !expand_same by auto.
  clear Hn. revert rb. induction ra as [|x ra IH]; intros [|y rb]; simpl; auto.
  constructor; [| apply IH].
  apply map2_length_same; apply expand_length_any.
Qed.

Lemma bdim_to_one (r : nat) : r <> 1%nat -> bdim r 1 = Ok r.
Proof.
  intros H. unfold bdim. destruct (Nat.eqb_spec r 1); [contradiction | reflexivity].
Qed.

Lemma bdim_err (r d : nat) :
  r <> d -> r <> 1%nat -> d <> 1%nat -> bdim r d = Err RuntimeError.
Proof.
  intros H1 H2 H3. unfold bdim.
  destruct (Nat.eqb_spec r d); [contradiction|].
  destruct (Nat.eqb_spec r 1); [contradiction|].
  destruct (Nat.eqb_spec d 1); [contradiction | reflexivity].
Qed.

(** A batch whose column count fits neither the buffers nor broadcasting
    makes [update] raise before any buffer is written. *)
Lemma update_raises (d : nat) (self : Normalizer) (batch : Tensor2) :
  length (running_mean self) = d -> length (running_variance self) = d ->
  ncols batch <> d -> ncols batch <> 1%nat ->
  update batch self = (self, Err RuntimeError).
Proof.
  intros Hm Hv Hd H1.
  unfold update, bind, lift, get_steps, get_mean, get_variance.
  destruct (Nat.eq_dec d 1) as [E | E].
  - rewrite E in Hm, Hv, Hd. clear E.
    destruct (t2_vec_op_ok Rminus batch (running_mean self) (ncols batch))
      as [old [-> [Hn Hold]]]; [rewrite Hm; now apply bdim_to_one|].
    set (total := (normalization_steps self + Z.of_nat (size0 batch))%Z).
    destruct (vec_op_ok Rplus (running_mean self)
                (sum0 (t2_div_scalar {| ncols := ncols batch; rows := old |} total))
                (ncols batch)) as [m' [-> Hm']].
    { rewrite Hm. unfold sum0, t2_div_scalar. simpl.
      rewrite sum_rows_length; [apply bdim_one|].
      rewrite Forall_forall in *. intros r Hr. apply in_map_iff in Hr.
      destruct Hr as [r0 [<- Hr0]]. rewrite length_map. auto. }
    destruct (t2_vec_op_ok Rminus batch m' (ncols batch))
      as [new [-> [Hn' Hnew]]]; [rewrite Hm'; apply bdim_same|].
    destruct (t2_op_ok Rmult (ncols batch) new old) as [pr [-> Hpr]]; [congruence|].
    destruct (vec_op_ok Rplus (running_variance self)
                (sum0 {| ncols := ncols batch; rows := pr |}) (ncols batch))
      as [v' [-> Hv']].
    { rewrite Hv. unfold sum0. simpl. rewrite sum_rows_length by assumption.
      apply bdim_one. }
    unfold copy_mean, copy_. rewrite Hm', Hm.
    destruct (Nat.eqb_spec (ncols batch) 1); [contradiction | reflexivity].
  - unfold t2_vec_op. rewrite Hm, bdim_err by assumption. reflexivity.
Qed.

End UpdateRaises.

(** ** What a returning [update] writes, coordinate by coordinate *)

Section UpdateCoordinates.
Local Open Scope R_scope.

Lemma expand_cols_same (t : Tensor2) :
  wf_tensor t -> expand_cols (ncols t) t = t.
Proof.
  intros Hwf. destruct t as [c rs]. unfold expand_cols, wf_tensor in *. simpl in *.
  f_equal. rewrite <- (map_id rs) at 2. apply map_ext_in. intros r Hr.
  rewrite Forall_forall in Hwf. now apply expand_same, Hwf.
Qed.

Lemma update_spec (d : nat) (self : Normalizer) (batch : Tensor2) :
  length (running_mean self) = d -> length (running_variance self) = d ->
  ncols batch = d \/ ncols batch = 1%nat -> wf_tensor batch ->
  exists self',
    update batch self = (self', Ok tt)
    /\ normalization_steps self'
       = (normalization_steps self + Z.of_nat (size0 batch))%Z
    /\ length (running_mean self') = d
    /\ length (running_variance self') = d
    /\ forall j, (j < d)%nat ->
         let xs := col j (rows (expand_cols d batch)) in
         let s := normalization_steps self in
         let m := nth j (running_mean self) 0 in
         let v := nth j (running_variance self) 0 in
         nth j (running_mean self') 0 = newMean s m xs
         /\ nth j (running_variance self') 0 = newSumSqDev s m v xs.
Proof.
  intros Hm Hv Hc Hwf.
  eexists. split; [apply (update_run d self batch Hm Hv Hc Hwf)|].
  unfold updated. cbn [normalization_steps running_mean running_variance].
  pose proof (mean_after_length d self batch Hm Hc Hwf) as Hm'.
  pose proof (variance_after_length d self batch Hm Hv Hc Hwf) as Hv'.
  split; [reflexivity|]. split; [exact Hm'|]. split; [exact Hv'|].
  intros j Hj. cbv zeta.
  assert (Hrs : Forall (fun r => length r = length (running_mean self))
                  (rows (expand_cols d batch))).
  { rewrite Hm. apply (expand_cols_wf d batch Hwf Hc). }
  assert (Hlen : length (col j (rows (expand_cols d batch))) = size0 batch).
  { rewrite col_length. unfold expand_cols. simpl. apply length_map. }
  assert (E1 : nth j (mean_after (normalization_steps self + Z.of_nat (size0 batch))
                        (running_mean self) (rows (expand_cols d batch))) 0
               = newMean (normalization_steps self) (nth j (running_mean self) 0)
                   (col j (rows (expand_cols d batch)))).
  { rewrite mean_after_nth by (auto; lia).
    unfold newMean, newTotal. now rewrite Hlen. }
  split; [exact E1|].
  rewrite variance_after_nth;
    [| exact Hrs | rewrite Hm; exact Hm' | congruence | lia].
  rewrite E1. reflexivity.
Qed.

End UpdateCoordinates.

(** ** The invariant *)

Section Invariant.
Local Open Scope R_scope.

Lemma Forall_nth_R (P : R -> Prop) (l : list R) :
  (forall j, (j < length l)%nat -> P (nth j l 0)) -> Forall P l.
Proof. intros H. apply Forall_nth. intros i dflt Hi. rewrite (nth_indep l dflt 0 Hi). auto. Qed.

Lemma Forall_nth_R_inv (P : R -> Prop) (l : list R) (j : nat) :
  Forall P l -> (j < length l)%nat -> P (nth j l 0).
Proof. intros H Hj. rewrite Forall_forall in H. apply H, nth_In, Hj. Qed.

Lemma compatible_dec (d : nat) (batch : Tensor2) :
  {ncols batch = d \/ ncols batch = 1%nat} + {ncols batch <> d /\ ncols batch <> 1%nat}.
Proof.
  destruct (Nat.eq_dec (ncols batch) d); [left; now left|].
  destruct (Nat.eq_dec (ncols batch) 1); [left; now right | right; now split].
Qed.

(** Every call of [update] on a state satisfying the invariant leaves a
    state satisfying it, with a step count and accumulator entries that
    did not decrease. *)
Lemma update_invariant_from (lo : R) (d : nat) (self : Normalizer) (batch : Tensor2) :
  invariant_from lo d self -> wf_tensor batch ->
  invariant_from lo d (after (update batch) self)
  /\ (normalization_steps self <= normalization_steps (after (update batch) self))%Z
  /\ forall j, (j < d)%nat ->
       nth j (running_variance self) 0
       <= nth j (running_variance (after (update batch) self)) 0.
Proof.
  intros [Hs [Hm [Hv Hlo]]] Hwf. unfold after.
  destruct (compatible_dec d batch) as [Hc | [Hc1 Hc2]].
  - destruct (update_spec d self batch Hm Hv Hc Hwf)
      as [self' [-> [Hs' [Hm' [Hv' Hpt]]]]]. simpl.
    assert (Hmono : forall j, (j < d)%nat ->
              nth j (running_variance self) 0 <= nth j (running_variance self') 0).
    { intros j Hj. destruct (Hpt j Hj) as [_ ->]. unfold newSumSqDev.
      pose proof (increment_nonneg (normalization_steps self)
                    (nth j (running_mean self) 0)
                    (col j (rows (expand_cols d batch))) Hs). lra. }
    split; [| split; [lia | exact Hmono]].
    repeat split; try assumption; try lia.
    apply Forall_nth_R. intros j Hj. rewrite Hv' in Hj.
    specialize (Hmono j Hj).
    pose proof (Forall_nth_R_inv _ _ j Hlo ltac:(lia)). simpl in *. lra.
  - rewrite (update_raises d self batch Hm Hv Hc1 Hc2). simpl.
    split; [repeat split; assumption|]. split; [lia|]. intros; lra.
Qed.

End Invariant.

Section Reachable.
Local Open Scope R_scope.

Lemma init_invariant (d : nat) : invariant_from 1 d (Normalizer_init d).
Proof.
  unfold invariant_from, Normalizer_init. simpl.
  repeat split; try apply repeat_length; try lia.
  apply Forall_forall. intros v Hv. apply repeat_spec in Hv. lra.
Qed.





End Reachable.

(** ** [forward] *)

Section Forward.
Local Open Scope R_scope.


Lemma clamp_inside (x lo hi : R) : lo <= x <= hi -> clamp x lo hi = x.
Proof.
  intros H. unfold clamp, Rmin, Rmax.
  destruct (Rle_dec x lo); destruct (Rle_dec _ hi); lra.
Qed.

Lemma clamp_above (x lo hi : R) : lo <= hi <= x -> clamp x lo hi = hi.
Proof.
  intros H. unfold clamp, Rmin, Rmax.
  destruct (Rle_dec x lo); destruct (Rle_dec _ hi); lra.
Qed.



Lemma forward_run (d : nat) (self : Normalizer) (inputs : Tensor2) :
  length (running_mean self) = d -> length (running_variance self) = d ->
  ncols inputs = d \/ ncols inputs = 1%nat -> wf_tensor inputs ->
  forward inputs self
  = (self,
     Ok {| ncols := d;
           rows := map (fun r => map (fun x => clamp x (-5) 5)
                                   (map2 Rdiv (map2 Rminus r (running_mean self))
                                      (map sqrt (variance self))))
                     (rows (expand_cols d inputs)) |}).
Proof.
  intros Hm Hv Hc Hwf.
  unfold forward, bind, lift, ret, get_mean, get_variance, get_steps.
  rewrite (t2_vec_op_bcast Rminus inputs (running_mean self)) by (auto; congruence).
  rewrite Hm.
  rewrite t2_vec_op_same.
  - unfold t2_clamp. simpl. now rewrite !map_map.
  - unfold wf_tensor. simpl. apply Forall_forall. intros r Hr.
    apply in_map_iff in Hr. destruct Hr as [r0 [<- Hr0]].
    apply in_map_iff in Hr0. destruct Hr0 as [r1 [<- _]].
    apply map2_length_same; [apply expand_length_any | exact Hm].
  - simpl. unfold vec_div_scalar. now rewrite !length_map.
Qed.




End Forward.

(** ** Empty batches and split batches *)

Section Batches.
Local Open Scope R_scope.

Lemma map2_plus_zero (m : Vec) : map2 Rplus m (repeat 0 (length m)) = m.
Proof.
  induction m as [|x m IH]; simpl; [reflexivity|].
  rewrite IH. f_equal. lra.
Qed.

Lemma update_empty_run (d : nat) (self : Normalizer) (batch : Tensor2) :
  length (running_mean self) = d -> length (running_variance self) = d ->
  rows batch = [] -> ncols batch = d \/ ncols batch = 1%nat ->
  update batch self = (self, Ok tt).
Proof.
  intros Hm Hv Hrows Hc.
  assert (Hwf : wf_tensor batch) by (unfold wf_tensor; rewrite Hrows; constructor).
  rewrite (update_run d self batch Hm Hv Hc Hwf).
  unfold updated, size0, expand_cols, mean_after, variance_after. rewrite Hrows. simpl.
  rewrite Z.add_0_r, !map2_plus_zero.
  rewrite Hm, <- Hv, map2_plus_zero.
  destruct self; reflexivity.
Qed.

Lemma update_empty (d : nat) (self : Normalizer) (batch : Tensor2) :
  length (running_mean self) = d -> length (running_variance self) = d ->
  rows batch = [] -> after (update batch) self = self.
Proof.
  intros Hm Hv Hrows. unfold after.
  destruct (compatible_dec d batch) as [Hc | [Hc1 Hc2]].
  - now rewrite (update_empty_run d self batch Hm Hv Hrows Hc).
  - now rewrite (update_raises d self batch Hm Hv Hc1 Hc2).
Qed.

Lemma expand_cols_rows (d : nat) (t : Tensor2) :
  wf_tensor t -> ncols t = d -> rows (expand_cols d t) = rows t.
Proof. intros Hwf <-. now rewrite expand_cols_same. Qed.

Lemma cat0_wf (a b : Tensor2) :
  wf_tensor a -> wf_tensor b -> ncols a = ncols b -> wf_tensor (cat0 a b).
Proof.
  unfold wf_tensor, cat0. simpl. intros Ha Hb E. apply Forall_app. split; [exact Ha|].
  now rewrite E.
Qed.

Lemma Normalizer_ext (a b : Normalizer) :
  normalization_steps a = normalization_steps b ->
  running_mean a = running_mean b ->
  running_variance a = running_variance b -> a = b.
Proof. destruct a, b; simpl; intros; subst; reflexivity. Qed.

(** One call on [a] followed by one on [b] leaves the state that one call
    on the concatenated batch leaves. *)
Lemma update_cat (lo : R) (d : nat) (self : Normalizer) (a b : Tensor2) :
  invariant_from lo d self ->
  wf_tensor a -> wf_tensor b -> ncols a = d -> ncols b = d ->
  after (update b) (after (update a) self) = after (update (cat0 a b)) self.
Proof.
  intros [Hs [Hm [Hv _]]] Hwa Hwb Ha Hb. unfold after.
  destruct (update_spec d self a Hm Hv (or_introl Ha) Hwa)
    as [s1 [-> [Hs1 [Hm1 [Hv1 Hp1]]]]]. simpl.
  destruct (update_spec d s1 b Hm1 Hv1 (or_introl Hb) Hwb)
    as [s2 [-> [Hs2 [Hm2 [Hv2 Hp2]]]]]. simpl.
  assert (Hwc : wf_tensor (cat0 a b)) by (apply cat0_wf; congruence).
  destruct (update_spec d self (cat0 a b) Hm Hv (or_introl Ha) Hwc)
    as [s3 [-> [Hs3 [Hm3 [Hv3 Hp3]]]]]. simpl.
  assert (Hca : forall j, newTotal (normalization_steps self) (col j (rows a))
                          = normalization_steps s1).
  { intros j. unfold newTotal. rewrite col_length. symmetry. exact Hs1. }
  apply Normalizer_ext.
  - rewrite Hs2, Hs1, Hs3. unfold size0, cat0. simpl. rewrite length_app. lia.
  - apply (nth_ext _ _ 0 0); [congruence|]. intros j Hj. rewrite Hm2 in Hj.
    destruct (Hp1 j Hj) as [E1 _]. destruct (Hp2 j Hj) as [E2 _].
    destruct (Hp3 j Hj) as [E3 _].
    rewrite expand_cols_rows in E1, E2, E3 by auto.
    rewrite E2, E3, E1, <- (Hca j). unfold cat0. simpl rows. rewrite col_app.
    now apply newMean_app.
  - apply (nth_ext _ _ 0 0); [congruence|]. intros j Hj. rewrite Hv2 in Hj.
    destruct (Hp1 j Hj) as [E1 F1]. destruct (Hp2 j Hj) as [_ F2].
    destruct (Hp3 j Hj) as [_ F3].
    rewrite expand_cols_rows in E1, F1, F2, F3 by auto.
    rewrite F2, F3, F1, E1, <- (Hca j). unfold cat0. simpl rows. rewrite col_app.
    now apply newSumSqDev_app.
Qed.

(** Any number of sequential calls. *)
Lemma feed_cat_all (lo : R) (d : nat) (chunks : list Tensor2) (self : Normalizer) :
  invariant_from lo d self ->
  Forall (fun c => wf_tensor c /\ ncols c = d) chunks ->
  feed chunks self = after (update (cat_all d chunks)) self.
Proof.
  intros Hinv Hall. revert self Hinv.
  induction Hall as [|c cs [Hwc Hc] Hcs IH]; intros self Hinv.
  - destruct Hinv as [_ [Hm [Hv _]]]. simpl. symmetry.
    now apply (update_empty d).
  - unfold feed in *. simpl fold_left.
    rewrite IH by (now apply update_invariant_from).
    assert (Hw : wf_tensor (cat_all d cs)).
    { unfold wf_tensor, cat_all. simpl. apply Forall_forall. intros r Hr.
      apply in_concat in Hr. destruct Hr as [l [Hl Hr]].
      apply in_map_iff in Hl. destruct Hl as [t [<- Ht]].
      rewrite Forall_forall in Hcs. destruct (Hcs t Ht) as [Hwt Hnt].
      unfold wf_tensor in Hwt. rewrite Forall_forall in Hwt.
      rewrite <- Hnt. now apply Hwt. }
    rewrite (update_cat lo d self c (cat_all d cs) Hinv Hwc Hw Hc eq_refl).
    unfold cat0, cat_all. simpl. now rewrite Hc.
Qed.

End Batches.

(** ** Shape arithmetic *)

Section ShapeLemmas.
Local Open Scope Z_scope.



Lemma poolOutputSize_axis_div (size kernel : Z) :
  poolOutputSize_axis size kernel = (size - kernel) / 2 + 1.
Proof. unfold poolOutputSize_axis. now rewrite <- Zdiv_Qdiv. Qed.


Lemma conv_axis_zero_stride (size k padding dilation : Z) :
  conv_axis size k 0 padding dilation = Err ZeroDivisionError.
Proof. reflexivity. Qed.


Lemma broadcast_rev_same (x : Shape) : broadcast_rev x x = Ok x.
Proof.
  induction x as [|a x IH]; simpl; [reflexivity|].
  rewrite IH. simpl. now rewrite Z.eqb_refl.
Qed.

Lemma broadcast_shapes_same (x : Shape) : broadcast_shapes x x = Ok x.
Proof.
  unfold broadcast_shapes. rewrite broadcast_rev_same. simpl. now rewrite rev_involutive.
Qed.

(** A 3x3 convolution of stride 1 and padding 1 keeps a positive axis. *)
Lemma conv2d_axis_same (size : Z) : 0 < size -> conv2d_axis size 3 1 1 = Ok size.
Proof.
  intros H. unfold conv2d_axis. change (1 <=? 0) with false. cbv iota zeta.
  rewrite Z.div_1_r.
  match goal with |- context [?a <=? 0] => destruct (Z.leb_spec a 0) end;
    [lia | f_equal; lia].
Qed.

Lemma conv2d_axis_error (size k stride padding : Z) (e : exn) :
  conv2d_axis size k stride padding = Err e -> e = RuntimeError.
Proof.
  unfold conv2d_axis. destruct (stride <=? 0); [congruence|].
  destruct (_ <=? 0); congruence.
Qed.

Lemma conv2d_axis_same_ok (size out : Z) :
  conv2d_axis size 3 1 1 = Ok out -> out = size.
Proof.
  unfold conv2d_axis. change (1 <=? 0) with false. cbv iota zeta.
  rewrite Z.div_1_r. destruct (_ <=? 0); [discriminate|]. intros [= <-]. lia.
Qed.

Lemma conv2d_shape_error (cin cout : Z) (k s : Z * Z) (p : Z) (x : Shape) (e : exn) :
  conv2d_shape cin cout k s p x = Err e -> e = RuntimeError.
Proof.
  unfold conv2d_shape.
  destruct x as [|n [|c [|h [|w [|? ?]]]]]; try congruence.
  destruct (c =? cin); [| congruence].
  destruct (conv2d_axis h (fst k) (fst s) p) as [h' | e1] eqn:E1; simpl.
  - destruct (conv2d_axis w (snd k) (snd s) p) as [w' | e2] eqn:E2; simpl;
      [discriminate|]. intros [= <-]. eapply conv2d_axis_error, E2.
  - intros [= <-]. eapply conv2d_axis_error, E1.
Qed.

Lemma conv2d_shape_same_ok (channel : Z) (x y : Shape) :
  conv2d_shape channel channel (3, 3) (1, 1) 1 x = Ok y -> y = x.
Proof.
  unfold conv2d_shape.
  destruct x as [|n [|c [|h [|w [|? ?]]]]]; try discriminate.
  destruct (Z.eqb_spec c channel) as [-> |]; [| discriminate].
  simpl fst. simpl snd.
  destruct (conv2d_axis h 3 1 1) as [h' | e1] eqn:E1; simpl; [| discriminate].
  destruct (conv2d_axis w 3 1 1) as [w' | e2] eqn:E2; simpl; [| discriminate].
  intros [= <-]. apply conv2d_axis_same_ok in E1, E2. now subst.
Qed.

(** What [ResNetBlock.forward] does to a shape, case by case. *)
Lemma ResNetBlock_forward_cases (channel : Z) (x : Shape) :
  ResNetBlock_forward_shape (ResNetBlock_init channel) x = Ok x
  \/ ResNetBlock_forward_shape (ResNetBlock_init channel) x = Err RuntimeError.
Proof.
  unfold ResNetBlock_forward_shape, ResNetBlock_init. simpl.
  destruct (conv2d_shape channel channel (3, 3) (1, 1) 1 x) as [y | e] eqn:E1; simpl.
  - pose proof (conv2d_shape_same_ok channel x y E1) as ->.
    rewrite E1. simpl. left. apply broadcast_shapes_same.
  - right. now rewrite (conv2d_shape_error _ _ _ _ _ _ _ E1).
Qed.

End ShapeLemmas.

(** ** Runs on concrete batches *)

Section Runs.
Local Open Scope R_scope.

Ltac list_eq :=
  repeat match goal with
         | |- (_, _) = (_, _) => f_equal
         | |- Ok _ = Ok _ => f_equal
         | |- _ :: _ = _ :: _ => f_equal
         | |- Build_Tensor2 _ _ = Build_Tensor2 _ _ => f_equal
         | |- Build_Normalizer _ _ _ = Build_Normalizer _ _ _ => f_equal
         end; try lra.

Ltac run_method :=
  unfold update, forward, bind, lift, ret, get_steps, get_mean, get_variance,
    copy_mean, copy_variance, copy_steps, t2_clamp; cbn.

(** Two samples fed to a fresh normalizer of one coordinate. *)
Example update_two_samples :
  update {| ncols := 1%nat; rows := [[2]; [4]] |} (Normalizer_init 1%nat)
  = ({| normalization_steps := 3; running_mean := [2]; running_variance := [9] |},
     Ok tt).
Proof. run_method. list_eq. Qed.

(** A one-column sample is broadcast over the two coordinates. *)
Example update_broadcast_sample :
  update {| ncols := 1%nat; rows := [[3]] |} (Normalizer_init 2%nat)
  = ({| normalization_steps := 2; running_mean := [3 / 2; 3 / 2];
        running_variance := [11 / 2; 11 / 2] |}, Ok tt).
Proof. run_method. list_eq. Qed.

(** Three columns fit neither two buffer entries nor broadcasting. *)
Example update_unfit_sample :
  update {| ncols := 3%nat; rows := [[7; 1; 2]] |} (Normalizer_init 2%nat)
  = (Normalizer_init 2%nat, Err RuntimeError).
Proof. reflexivity. Qed.

Example forward_two_samples :
  forward {| ncols := 1%nat; rows := [[7]; [1 / 2]] |} (Normalizer_init 1%nat)
  = (Normalizer_init 1%nat, Ok {| ncols := 1%nat; rows := [[5]; [1 / 2]] |}).
Proof.
  run_method.
  assert (E : sqrt (1 / 1) = 1) by (replace (1 / 1) with 1 by lra; apply sqrt_1).
  rewrite E, clamp_above, clamp_inside by lra. list_eq.
Qed.

End Runs.

(** * The claims *)

(** ** RunningStats *)

Section RunningStatsClaims.
Local Open Scope R_scope.







(** C4.  From every state satisfying the invariant, feeding the samples in
    order through any number of sequential [update] calls, one per chunk,
    leaves the same mean and the same derived variance
    [sumSqDev / stepCount] (indeed the same state) as one [update] call with
    all the samples in one batch; in exact arithmetic. *)
Theorem split_batches_agree (d : nat) (self : Normalizer) (chunks : list Tensor2) :
  invariant d self ->
  Forall (fun c => wf_tensor c /\ ncols c = d) chunks ->
  running_mean (feed chunks self)
  = running_mean (after (update (cat_all d chunks)) self)
  /\ variance (feed chunks self) = variance (after (update (cat_all d chunks)) self)
  /\ feed chunks self = after (update (cat_all d chunks)) self.
Proof.
  intros Hinv Hall.
  pose proof (feed_cat_all 0 d chunks self Hinv Hall) as E.
  rewrite E. repeat split.
Qed.

Lemma split_batches_agree_witness :
  let a := {| ncols := 1%nat; rows := [[2]] |} in
  let b := {| ncols := 1%nat; rows := [[4]; [9]] |} in
  running_mean (feed [a; b] (Normalizer_init 1%nat))
  = running_mean (after (update (cat_all 1 [a; b])) (Normalizer_init 1%nat))
  /\ variance (feed [a; b] (Normalizer_init 1%nat))
     = variance (after (update (cat_all 1 [a; b])) (Normalizer_init 1%nat))
  /\ feed [a; b] (Normalizer_init 1%nat)
     = after (update (cat_all 1 [a; b])) (Normalizer_init 1%nat).
Proof.
  intros a b.
  apply (split_batches_agree 1%nat (Normalizer_init 1%nat) [a; b]).
  - unfold invariant, invariant_from, Normalizer_init. simpl.
    repeat split; try lia. repeat constructor. lra.
  - repeat constructor.
Defined.

(** C10.  For every state whose two vectors have [d] entries, [update] with
    an empty batch leaves the step count, the mean and the accumulator as
    they were; when the batch has [d] columns the call returns. *)
Theorem update_empty_batch_noop (d : nat) (self : Normalizer) (batch : Tensor2) :
  length (running_mean self) = d -> length (running_variance self) = d ->
  size0 batch = 0%nat ->
  after (update batch) self = self
  /\ (ncols batch = d -> update batch self = (self, Ok tt)).
Proof.
  intros Hm Hv Hn.
  assert (Hrows : rows batch = []) by (now apply length_zero_iff_nil).
  split.
  - now apply (update_empty d).
  - intros Hc. now apply (update_empty_run d); [| | | left].
Qed.

Lemma update_empty_batch_noop_witness :
  after (update {| ncols := 2%nat; rows := [] |}) (Normalizer_init 2%nat)
  = Normalizer_init 2%nat
  /\ (2 = 2 -> update {| ncols := 2%nat; rows := [] |} (Normalizer_init 2%nat)
               = (Normalizer_init 2%nat, Ok tt))%nat.
Proof.
  apply (update_empty_batch_noop 2%nat (Normalizer_init 2%nat)
           {| ncols := 2%nat; rows := [] |}); reflexivity.
Defined.

End RunningStatsClaims.

(** ** ShapeMath and the visual encoders *)

Section ShapeClaims.
Local Open Scope Z_scope.






(** C7.  [pool_out_shape] computes [floor((size - kernel) / 2) + 1] on each
    axis, and a ResNetVisualEncoder built for a 84 x 84 input has
    [output_size() = 32 * 9 * 9 = 2592], the sizes going 84, 41, 20, 9
    through three rounds of [pool_out_shape] with kernel 3. *)
Theorem pool_out_shape_formula_and_resnet_size :
  (forall h w kernel_size,
      pool_out_shape (h, w) kernel_size
      = (poolOutputSize_axis h kernel_size, poolOutputSize_axis w kernel_size))
  /\ pool_out_shape (84, 84) 3 = (41, 41)
  /\ pool_out_shape (41, 41) 3 = (20, 20)
  /\ pool_out_shape (20, 20) 3 = (9, 9)
  /\ (forall initial_channels,
        ResNetVisualEncoder_output_size (ResNetVisualEncoder_init 84 84 initial_channels)
        = 32 * 9 * 9)
  /\ 32 * 9 * 9 = 2592.
Proof.
  split.
  - intros h w k. unfold pool_out_shape. now rewrite !poolOutputSize_axis_div.
  - repeat split; reflexivity.
Qed.

(** C8.  Built for a 84 x 84 input, whatever the channel count and the
    [output_size] argument, a SimpleVisualEncoder has
    [output_size() = 9 * 9 * 32 = 2592] (84, 20, 9 through two chained
    [conv_output_shape] calls) and a NatureVisualEncoder has
    [output_size() = 7 * 7 * 64 = 3136] (84, 20, 9, 7 through three). *)
Theorem simple_and_nature_output_size (initial_channels output_size : Z) :
  (exists enc,
      SimpleVisualEncoder_init 84 84 initial_channels output_size = Ok enc
      /\ SimpleVisualEncoder_output_size enc = 9 * 9 * 32
      /\ SimpleVisualEncoder_output_size enc = 2592)
  /\ (exists enc,
        NatureVisualEncoder_init 84 84 initial_channels output_size = Ok enc
        /\ NatureVisualEncoder_output_size enc = 7 * 7 * 64
        /\ NatureVisualEncoder_output_size enc = 3136)
  /\ conv_output_shape (84, 84) (KInt 8) 4 0 1 = Ok (20, 20)
  /\ conv_output_shape (20, 20) (KInt 4) 2 0 1 = Ok (9, 9)
  /\ conv_output_shape (9, 9) (KInt 3) 1 0 1 = Ok (7, 7).
Proof.
  split; [| split].
  - eexists. split; [reflexivity|]. split; reflexivity.
  - eexists. split; [reflexivity|]. split; reflexivity.
  - repeat split; reflexivity.
Qed.

(** C9, as the specification states it, fails: a block of 16 channels given
    an input of 3 channels, whose shape the block cannot keep, fails with the
    provider's error, not with a ShapeMismatchError or ConfigurationError. *)
Lemma channel_mismatch_is_provider_error :
  ResNetBlock_forward_shape (ResNetBlock_init 16) [1; 3; 8; 8] = Err RuntimeError
  /\ ResNetBlock_forward_shape (ResNetBlock_init 16) [1; 3; 8; 8]
     <> Err ShapeMismatchError
  /\ ResNetBlock_forward_shape (ResNetBlock_init 16) [1; 3; 8; 8]
     <> Err ConfigurationError.
Proof. repeat split; try reflexivity; discriminate. Qed.

(** C9, amended.  [ResNetBlock.forward] makes no shape check of its own and
    never raises a ShapeMismatchError or a ConfigurationError: an input whose
    channel count is not the block's fails inside the provider's convolution
    with the provider's error; an input [N, C, H, W] with the block's channel
    count and positive [H] and [W] gives an output of the input's shape; and
    whenever the call returns, the output has the input's shape. *)
Theorem resnet_block_shape_contract (channel : Z) :
  (forall x, ResNetBlock_forward_shape (ResNetBlock_init channel) x
             <> Err ShapeMismatchError
             /\ ResNetBlock_forward_shape (ResNetBlock_init channel) x
                <> Err ConfigurationError)
  /\ (forall n c h w,
        c <> channel ->
        ResNetBlock_forward_shape (ResNetBlock_init channel) [n; c; h; w]
        = Err RuntimeError)
  /\ (forall n h w,
        0 < h -> 0 < w ->
        ResNetBlock_forward_shape (ResNetBlock_init channel) [n; channel; h; w]
        = Ok [n; channel; h; w])
  /\ (forall x y,
        ResNetBlock_forward_shape (ResNetBlock_init channel) x = Ok y -> y = x).
Proof.
  split; [| split; [| split]].
  - intros x. destruct (ResNetBlock_forward_cases channel x) as [-> | ->];
      split; discriminate.
  - intros n c h w Hc. unfold ResNetBlock_forward_shape, ResNetBlock_init. simpl.
    destruct (Z.eqb_spec c channel); [contradiction | reflexivity].
  - intros n h w Hh Hw. unfold ResNetBlock_forward_shape, ResNetBlock_init.
    cbn [layers sequential_shape layer_shape rbind conv2d_shape fst snd].
    rewrite Z.eqb_refl, !conv2d_axis_same by assumption.
    cbn [rbind conv2d_shape fst snd].
    rewrite Z.eqb_refl, !conv2d_axis_same by assumption.
    cbn [rbind]. apply broadcast_shapes_same.
  - intros x y H. destruct (ResNetBlock_forward_cases channel x) as [E | E];
      rewrite E in H; congruence.
Qed.

Lemma resnet_block_shape_contract_witness :
  ResNetBlock_forward_shape (ResNetBlock_init 16) [1; 3; 8; 8] = Err RuntimeError
  /\ ResNetBlock_forward_shape (ResNetBlock_init 16) [1; 16; 8; 8] = Ok [1; 16; 8; 8].
Proof.
  destruct (resnet_block_shape_contract 16) as [_ [Hbad [Hgood _]]].
  split; [apply Hbad; lia | apply Hgood; lia].
Defined.

End ShapeClaims.

(** * Further properties of the code *)

(** ** [copy_from], [update] and [forward] of the normalizer *)

Section NormalizerFurther.
Local Open Scope R_scope.

Lemma Rsum_permutation (l l' : list R) : Permutation l l' -> Rsum l = Rsum l'.
Proof.
  induction 1 as [| x l l' _ IH | x y l | l l' l'' _ IH1 _ IH2]; simpl.
  - reflexivity.
  - fold (Rsum l). fold (Rsum l'). now rewrite IH.
  - fold (Rsum l). lra.
  - congruence.
Qed.

Lemma newMean_permutation (s : Z) (m : R) (xs ys : list R) :
  Permutation xs ys -> newMean s m xs = newMean s m ys.
Proof.
  intros H. unfold newMean, newTotal. rewrite (Permutation_length H).
  f_equal. apply Rsum_permutation. now apply Permutation_map.
Qed.

Lemma newSumSqDev_permutation (s : Z) (m v : R) (xs ys : list R) :
  Permutation xs ys -> newSumSqDev s m v xs = newSumSqDev s m v ys.
Proof.
  intros H. unfold newSumSqDev. rewrite (newMean_permutation s m xs ys H).
  f_equal. apply Rsum_permutation. now apply Permutation_map.
Qed.

Lemma wf_permutation (a b : Tensor2) :
  wf_tensor a -> ncols a = ncols b -> Permutation (rows a) (rows b) -> wf_tensor b.
Proof.
  unfold wf_tensor. intros Ha E HP. rewrite <- E.
  eapply Permutation_Forall; eassumption.
Qed.

Lemma update_eq_from_columns (d : nat) (self : Normalizer) (a b : Tensor2) :
  length (running_mean self) = d -> length (running_variance self) = d ->
  wf_tensor a -> wf_tensor b -> ncols a = d -> ncols b = d ->
  size0 a = size0 b ->
  (forall j, (j < d)%nat ->
     newMean (normalization_steps self) (nth j (running_mean self) 0) (col j (rows a))
     = newMean (normalization_steps self) (nth j (running_mean self) 0) (col j (rows b))
     /\ newSumSqDev (normalization_steps self) (nth j (running_mean self) 0)
          (nth j (running_variance self) 0) (col j (rows a))
        = newSumSqDev (normalization_steps self) (nth j (running_mean self) 0)
            (nth j (running_variance self) 0) (col j (rows b))) ->
  update a self = update b self.
Proof.
  intros Hm Hv Hwa Hwb Ha Hb Hn Hcols.
  destruct (update_spec d self a Hm Hv (or_introl Ha) Hwa)
    as [s1 [-> [Hs1 [Hm1 [Hv1 Hp1]]]]].
  destruct (update_spec d self b Hm Hv (or_introl Hb) Hwb)
    as [s2 [-> [Hs2 [Hm2 [Hv2 Hp2]]]]].
  f_equal. apply Normalizer_ext.
  - rewrite Hs1, Hs2. now rewrite Hn.
  - apply (nth_ext _ _ 0 0); [congruence|]. intros j Hj. rewrite Hm1 in Hj.
    destruct (Hp1 j Hj) as [E1 _]. destruct (Hp2 j Hj) as [E2 _].
    rewrite expand_cols_rows in E1, E2 by auto.
    rewrite E1, E2. apply Hcols, Hj.
  - apply (nth_ext _ _ 0 0); [congruence|]. intros j Hj. rewrite Hv1 in Hj.
    destruct (Hp1 j Hj) as [_ E1]. destruct (Hp2 j Hj) as [_ E2].
    rewrite expand_cols_rows in E1, E2 by auto.
    rewrite E1, E2. apply Hcols, Hj.
Qed.

(** X1.  The order of the samples inside a batch does not matter: two
    batches of [d] columns whose rows are a permutation of each other make
    [update] leave the same state and return. *)
Theorem update_permutation_invariant (d : nat) (self : Normalizer) (a b : Tensor2) :
  length (running_mean self) = d -> length (running_variance self) = d ->
  wf_tensor a -> ncols a = d -> ncols b = d ->
  Permutation (rows a) (rows b) ->
  update a self = update b self /\ snd (update a self) = Ok tt.
Proof.
  intros Hm Hv Hwa Ha Hb HP.
  assert (Hwb : wf_tensor b) by (apply (wf_permutation a b); congruence).
  split.
  - apply (update_eq_from_columns d); auto.
    + unfold size0. now apply Permutation_length.
    + intros j Hj.
      assert (HPj : Permutation (col j (rows a)) (col j (rows b)))
        by (now apply Permutation_map).
      split; [now apply newMean_permutation | now apply newSumSqDev_permutation].
  - destruct (update_spec d self a Hm Hv (or_introl Ha) Hwa) as [s1 [-> _]].
    reflexivity.
Qed.

Lemma update_permutation_invariant_witness :
  update {| ncols := 1%nat; rows := [[2]; [4]] |} (Normalizer_init 1%nat)
  = update {| ncols := 1%nat; rows := [[4]; [2]] |} (Normalizer_init 1%nat)
  /\ snd (update {| ncols := 1%nat; rows := [[2]; [4]] |} (Normalizer_init 1%nat)) = Ok tt.
Proof.
  apply (update_permutation_invariant 1%nat (Normalizer_init 1%nat)
           {| ncols := 1%nat; rows := [[2]; [4]] |}
           {| ncols := 1%nat; rows := [[4]; [2]] |}).
  - reflexivity.
  - reflexivity.
  - repeat constructor.
  - reflexivity.
  - reflexivity.
  - apply perm_swap.
Defined.

End NormalizerFurther.

Section NormalizerAccumulation.
Local Open Scope R_scope.



Lemma cat_all_wf (d : nat) (chunks : list Tensor2) :
  Forall (fun c => wf_tensor c /\ ncols c = d) chunks -> wf_tensor (cat_all d chunks).
Proof.
  intros Hcs. unfold wf_tensor, cat_all. simpl. apply Forall_forall. intros r Hr.
  apply in_concat in Hr. destruct Hr as [l [Hl Hr]].
  apply in_map_iff in Hl. destruct Hl as [t [<- Ht]].
  rewrite Forall_forall in Hcs. destruct (Hcs t Ht) as [Hwt Hnt].
  unfold wf_tensor in Hwt. rewrite Forall_forall in Hwt.
  rewrite <- Hnt. now apply Hwt.
Qed.

(** X3.  A freshly constructed normalizer fed any number of batches of [d]
    columns counts one more than the samples it was fed, its mean is the sum
    of the samples divided by that count (the initial state weighs as one
    sample at zero), and its accumulator is one plus the sum of the squared
    samples minus the count times the squared mean. *)
Theorem fresh_feed_closed_form (d : nat) (chunks : list Tensor2) (j : nat) :
  Forall (fun c => wf_tensor c /\ ncols c = d) chunks -> (j < d)%nat ->
  let self := feed chunks (Normalizer_init d) in
  let xs := col j (concat (map rows chunks)) in
  normalization_steps self = (1 + Z.of_nat (length xs))%Z
  /\ nth j (running_mean self) 0 = Rsum xs / IZR (normalization_steps self)
  /\ nth j (running_variance self) 0
     = 1 + Rsum (map sq xs)
       - IZR (normalization_steps self) * sq (nth j (running_mean self) 0).
Proof.
  intros Hcs Hj. cbv zeta.
  pose proof (init_invariant d) as Hinv.
  rewrite (feed_cat_all 1 d chunks (Normalizer_init d) Hinv Hcs).
  destruct Hinv as [Hs [Hm [Hv _]]].
  pose proof (cat_all_wf d chunks Hcs) as Hwf.
  unfold after.
  destruct (update_spec d (Normalizer_init d) (cat_all d chunks) Hm Hv
              (or_introl eq_refl) Hwf) as [self' [-> [Hs' [_ [_ Hpt]]]]].
  simpl fst. destruct (Hpt j Hj) as [E1 E2].
  rewrite expand_cols_rows in E1, E2 by (auto; reflexivity).
  unfold cat_all in E1, E2, Hs'. simpl rows in E1, E2.
  set (xs := col j (concat (map rows chunks))) in *.
  assert (Hn : normalization_steps self' = newTotal 1 xs).
  { rewrite Hs'. unfold newTotal, size0, xs. simpl. now rewrite col_length. }
  assert (H0 : nth j (running_mean (Normalizer_init d)) 0 = 0)
    by (simpl; apply nth_repeat).
  assert (H1 : nth j (running_variance (Normalizer_init d)) 0 = 1).
  { simpl. rewrite (nth_indep _ 0 1) by (now rewrite repeat_length).
    apply nth_repeat. }
  rewrite H0, H1 in *. simpl normalization_steps in E1, E2.
  pose proof (newTotal_pos 1 xs ltac:(lia)) as Hpos.
  pose proof (newMean_weighted 1 0 xs ltac:(lra)) as Hw.
  pose proof (newSumSqDev_weighted 1 0 1 xs ltac:(lra)) as Hq.
  rewrite E1, E2, Hn. split; [reflexivity|]. split.
  - apply (Rmult_eq_reg_l (IZR (newTotal 1 xs))); [| lra].
    rewrite Hw. field. lra.
  - unfold sq in *. lra.
Qed.

Lemma fresh_feed_closed_form_witness :
  let chunks := [ {| ncols := 1%nat; rows := [[2]] |};
                  {| ncols := 1%nat; rows := [[4]; [9]] |} ] in
  let self := feed chunks (Normalizer_init 1%nat) in
  let xs := col 0 (concat (map rows chunks)) in
  normalization_steps self = (1 + Z.of_nat (length xs))%Z
  /\ nth 0 (running_mean self) 0 = Rsum xs / IZR (normalization_steps self)
  /\ nth 0 (running_variance self) 0
     = 1 + Rsum (map sq xs)
       - IZR (normalization_steps self) * sq (nth 0 (running_mean self) 0).
Proof.
  intros chunks.
  apply (fresh_feed_closed_form 1%nat chunks 0%nat).
  - repeat constructor.
  - lia.
Defined.

End NormalizerAccumulation.

Section NormalizerCopy.
Local Open Scope R_scope.

Lemma copy_from_sync_run (self other : Normalizer) :
  length (running_mean other) = length (running_mean self) ->
  length (running_variance other) = length (running_variance self) ->
  fst (copy_from other self) = other /\ snd (copy_from other self) = Ok tt.
Proof.
  intros Hm Hv.
  unfold copy_from, bind, copy_steps, copy_mean, copy_variance. simpl.
  rewrite copy_same by assumption. simpl.
  rewrite copy_same by assumption. simpl.
  split; [destruct other|]; reflexivity.
Qed.

(** X4.  Between two normalizers whose buffers have the same lengths,
    [copy_from] returns and leaves [self] equal to the other one, so that
    [forward] then gives on every input what it gives on the other one. *)
Theorem copy_from_synchronizes (self other : Normalizer) :
  length (running_mean other) = length (running_mean self) ->
  length (running_variance other) = length (running_variance self) ->
  copy_from other self = (other, Ok tt)
  /\ forall inputs,
       snd (forward inputs (after (copy_from other) self)) = snd (forward inputs other).
Proof.
  intros Hm Hv.
  destruct (copy_from_sync_run self other Hm Hv) as [E1 E2].
  assert (E : copy_from other self = (other, Ok tt))
    by (rewrite (surjective_pairing (copy_from other self)); now rewrite E1, E2).
  split; [exact E|]. intros inputs. unfold after. now rewrite E.
Qed.

Lemma copy_from_synchronizes_witness :
  let other := after (update {| ncols := 1%nat; rows := [[2]; [4]] |}) (Normalizer_init 1%nat) in
  copy_from other (Normalizer_init 1%nat) = (other, Ok tt)
  /\ forall inputs,
       snd (forward inputs (after (copy_from other) (Normalizer_init 1%nat)))
       = snd (forward inputs other).
Proof.
  intros other.
  apply (copy_from_synchronizes (Normalizer_init 1%nat) other); reflexivity.
Defined.

(** X5.  [copy_from] writes the step count first: when the other mean has
    neither the length of [self]'s mean nor length one, the call raises the
    provider's error after the step count was overwritten, the mean and the
    accumulator of [self] staying as they were. *)
Theorem copy_from_unfit_is_partial (self other : Normalizer) :
  length (running_mean other) <> length (running_mean self) ->
  length (running_mean other) <> 1%nat ->
  copy_from other self
  = ({| normalization_steps := normalization_steps other;
        running_mean := running_mean self;
        running_variance := running_variance self |},
     Err RuntimeError).
Proof.
  intros Hd H1.
  unfold copy_from, bind, copy_steps, copy_mean, copy_. simpl.
  destruct (Nat.eqb_spec (length (running_mean other)) (length (running_mean self)));
    [contradiction|].
  destruct (Nat.eqb_spec (length (running_mean other)) 1); [contradiction|].
  reflexivity.
Qed.

Lemma copy_from_unfit_is_partial_witness :
  copy_from (after (update {| ncols := 3%nat; rows := [[1; 2; 3]] |}) (Normalizer_init 3%nat))
    (Normalizer_init 2%nat)
  = ({| normalization_steps := 2; running_mean := [0; 0]; running_variance := [1; 1] |},
     Err RuntimeError).
Proof.
  apply (copy_from_unfit_is_partial (Normalizer_init 2%nat)
           (after (update {| ncols := 3%nat; rows := [[1; 2; 3]] |}) (Normalizer_init 3%nat)));
    simpl; lia.
Defined.

End NormalizerCopy.

Section NormalizerColumns.
Local Open Scope R_scope.

Lemma expand_cols_idem (d : nat) (t : Tensor2) :
  rows (expand_cols d (expand_cols d t)) = rows (expand_cols d t).
Proof.
  unfold expand_cols. simpl. rewrite map_map. apply map_ext. intros r.
  apply expand_same, expand_length_any.
Qed.

(** X6.  A batch of one column is broadcast over the [d] buffer entries:
    [update] does on it what it does on the batch in which every sample is
    repeated [d] times, and returns. *)
Theorem update_broadcasts_one_column (d : nat) (self : Normalizer) (batch : Tensor2) :
  length (running_mean self) = d -> length (running_variance self) = d ->
  wf_tensor batch -> ncols batch = 1%nat ->
  update batch self = update (expand_cols d batch) self
  /\ snd (update batch self) = Ok tt
  /\ rows (expand_cols d batch)
     = map (fun r => if (d =? 1)%nat then r else repeat (hd 0 r) d) (rows batch).
Proof.
  intros Hm Hv Hwf Hc.
  assert (Hwe : wf_tensor (expand_cols d batch))
    by (apply expand_cols_wf; auto).
  rewrite (update_run d self batch Hm Hv (or_intror Hc) Hwf).
  rewrite (update_run d self (expand_cols d batch) Hm Hv (or_introl eq_refl) Hwe).
  split; [| split; [reflexivity|]].
  - assert (Hsz : size0 (expand_cols d batch) = size0 batch)
      by (unfold size0, expand_cols; simpl; apply length_map).
    unfold updated. now rewrite expand_cols_idem, Hsz.
  - unfold expand_cols. simpl. apply map_ext_in. intros r Hr.
    unfold wf_tensor in Hwf. rewrite Forall_forall in Hwf.
    specialize (Hwf r Hr). rewrite Hc in Hwf. unfold expand. rewrite Hwf.
    rewrite (Nat.eqb_sym 1 d). reflexivity.
Qed.

Lemma update_broadcasts_one_column_witness :
  update {| ncols := 1%nat; rows := [[3]] |} (Normalizer_init 2%nat)
  = update (expand_cols 2 {| ncols := 1%nat; rows := [[3]] |}) (Normalizer_init 2%nat)
  /\ snd (update {| ncols := 1%nat; rows := [[3]] |} (Normalizer_init 2%nat)) = Ok tt
  /\ rows (expand_cols 2 {| ncols := 1%nat; rows := [[3]] |})
     = map (fun r => if (2 =? 1)%nat then r else repeat (hd 0 r) 2) [[3]].
Proof.
  apply (update_broadcasts_one_column 2%nat (Normalizer_init 2%nat)
           {| ncols := 1%nat; rows := [[3]] |}).
  - reflexivity.
  - reflexivity.
  - repeat constructor.
  - reflexivity.
Defined.

(** X7.  [update] returns exactly when the batch has as many columns as the
    buffers have entries, or one column; on any other batch it raises the
    provider's error and has written nothing. *)
Theorem update_returns_iff_columns_fit (d : nat) (self : Normalizer) (batch : Tensor2) :
  length (running_mean self) = d -> length (running_variance self) = d ->
  wf_tensor batch ->
  (snd (update batch self) = Ok tt <-> (ncols batch = d \/ ncols batch = 1%nat))
  /\ (~ (ncols batch = d \/ ncols batch = 1%nat) ->
      update batch self = (self, Err RuntimeError)).
Proof.
  intros Hm Hv Hwf.
  assert (Hbad : ~ (ncols batch = d \/ ncols batch = 1%nat) ->
                 update batch self = (self, Err RuntimeError)).
  { intros Hn. apply (update_raises d); auto. }
  split; [| exact Hbad]. split.
  - intros Hok. destruct (compatible_dec d batch) as [Hc | [Hc1 Hc2]]; [exact Hc|].
    rewrite Hbad in Hok by tauto. discriminate.
  - intros Hc. now rewrite (update_run d self batch Hm Hv Hc Hwf).
Qed.

Lemma update_returns_iff_columns_fit_witness :
  (snd (update {| ncols := 3%nat; rows := [[7; 1; 2]] |} (Normalizer_init 2%nat)) = Ok tt
   <-> (3 = 2 \/ 3 = 1)%nat)
  /\ (~ (3 = 2 \/ 3 = 1)%nat ->
      update {| ncols := 3%nat; rows := [[7; 1; 2]] |} (Normalizer_init 2%nat)
      = (Normalizer_init 2%nat, Err RuntimeError)).
Proof.
  apply (update_returns_iff_columns_fit 2%nat (Normalizer_init 2%nat)
           {| ncols := 3%nat; rows := [[7; 1; 2]] |}).
  - reflexivity.
  - reflexivity.
  - repeat constructor.
Defined.

End NormalizerColumns.

Section NormalizerForward.
Local Open Scope R_scope.

Lemma bdim_fit (r d : nat) :
  r = d \/ r = 1%nat \/ d = 1%nat ->
  bdim r d = Ok (if (d =? 1)%nat then r else d).
Proof.
  intros H. unfold bdim.
  destruct (Nat.eqb_spec r d) as [-> | Hrd].
  - now destruct (d =? 1)%nat.
  - destruct (Nat.eqb_spec r 1) as [-> | Hr1].
    + destruct (Nat.eqb_spec d 1); [congruence | reflexivity].
    + destruct (Nat.eqb_spec d 1); [reflexivity | lia].
Qed.

(** X8.  [forward] is more permissive than [update]: it returns, without
    writing, exactly when the batch has as many columns as the buffers have
    entries, or one column, or the buffers have one entry (which is then
    broadcast over the columns of the batch); otherwise it raises the
    provider's error.  The output has the rows of the batch. *)
Theorem forward_returns_iff_columns_fit (d : nat) (self : Normalizer) (inputs : Tensor2) :
  length (running_mean self) = d -> length (running_variance self) = d ->
  ((ncols inputs = d \/ ncols inputs = 1%nat \/ d = 1%nat) ->
   exists out,
     forward inputs self = (self, Ok out)
     /\ ncols out = (if (d =? 1)%nat then ncols inputs else d)
     /\ size0 out = size0 inputs)
  /\ (~ (ncols inputs = d \/ ncols inputs = 1%nat \/ d = 1%nat) ->
      forward inputs self = (self, Err RuntimeError)).
Proof.
  intros Hm Hv. split.
  - intros Hfit.
    unfold forward, bind, lift, ret, get_mean, get_variance, get_steps.
    destruct (t2_vec_op_ok Rminus inputs (running_mean self)
                (if (d =? 1)%nat then ncols inputs else d))
      as [rs [-> [Hn _]]]; [rewrite Hm; now apply bdim_fit|].
    set (c := if (d =? 1)%nat then ncols inputs else d) in *.
    set (den := map sqrt (vec_div_scalar (running_variance self)
                            (normalization_steps self))).
    assert (Hden : length den = d)
      by (unfold den, vec_div_scalar; now rewrite !length_map).
    destruct (t2_vec_op_ok Rdiv {| ncols := c; rows := rs |} den c)
      as [qs [-> [Hn' _]]].
    { rewrite Hden. simpl ncols. unfold c.
      destruct (Nat.eqb_spec d 1) as [-> | Hd1].
      - destruct (Nat.eq_dec (ncols inputs) 1) as [-> | Hr];
          [apply bdim_same | now apply bdim_to_one].
      - apply bdim_same. }
    eexists. split; [reflexivity|]. split; [reflexivity|].
    unfold t2_clamp, size0 in *. cbn [rows] in *.
    transitivity (length qs); [apply length_map | congruence].
  - intros Hbad.
    unfold forward, bind, lift, ret, get_mean, get_variance, get_steps.
    assert (E : t2_vec_op Rminus inputs (running_mean self) = Err RuntimeError)
      by (unfold t2_vec_op; rewrite Hm, bdim_err by tauto; reflexivity).
    now rewrite E.
Qed.

Lemma forward_returns_iff_columns_fit_witness :
  (exists out,
     forward {| ncols := 3%nat; rows := [[7; 1; 2]] |} (Normalizer_init 1%nat)
     = (Normalizer_init 1%nat, Ok out)
     /\ ncols out = 3%nat /\ size0 out = 1%nat)
  /\ forward {| ncols := 3%nat; rows := [[7; 1; 2]] |} (Normalizer_init 2%nat)
     = (Normalizer_init 2%nat, Err RuntimeError).
Proof.
  split.
  - apply (proj1 (forward_returns_iff_columns_fit 1%nat (Normalizer_init 1%nat)
                    {| ncols := 3%nat; rows := [[7; 1; 2]] |} eq_refl eq_refl)).
    right. right. reflexivity.
  - apply (proj2 (forward_returns_iff_columns_fit 2%nat (Normalizer_init 2%nat)
                    {| ncols := 3%nat; rows := [[7; 1; 2]] |} eq_refl eq_refl)).
    simpl. lia.
Defined.

Lemma fresh_row (r : Vec) :
  map2 Rdiv (map2 Rminus r (repeat 0 (length r)))
    (map sqrt (vec_div_scalar (repeat 1 (length r)) 1))
  = r.
Proof.
  unfold vec_div_scalar.
  induction r as [|x r IH]; cbn [length repeat map map2]; [reflexivity|].
  rewrite IH. f_equal.
  replace (1 / IZR 1) with 1 by lra. rewrite sqrt_1. lra.
Qed.

(** X9.  A freshly constructed normalizer only clips: on a batch of [d]
    columns its [forward] returns the batch with every entry clamped to
    [[-5, 5]]. *)
Theorem fresh_forward_only_clamps (d : nat) (inputs : Tensor2) :
  wf_tensor inputs -> ncols inputs = d ->
  forward inputs (Normalizer_init d) = (Normalizer_init d, Ok (t2_clamp inputs (-5) 5)).
Proof.
  intros Hwf Hc.
  rewrite (forward_run d (Normalizer_init d) inputs) by
    (auto; simpl; apply repeat_length).
  rewrite expand_cols_rows by assumption.
  unfold t2_clamp. rewrite Hc. do 3 f_equal.
  apply map_ext_in. intros r Hr. f_equal.
  unfold wf_tensor in Hwf. rewrite Forall_forall in Hwf.
  specialize (Hwf r Hr). rewrite Hc in Hwf. subst d.
  unfold variance. simpl. apply fresh_row.
Qed.

Lemma fresh_forward_only_clamps_witness :
  forward {| ncols := 2%nat; rows := [[7; -9]; [1; 2]] |} (Normalizer_init 2%nat)
  = (Normalizer_init 2%nat,
     Ok (t2_clamp {| ncols := 2%nat; rows := [[7; -9]; [1; 2]] |} (-5) 5)).
Proof.
  apply (fresh_forward_only_clamps 2%nat {| ncols := 2%nat; rows := [[7; -9]; [1; 2]] |}).
  - repeat constructor.
  - reflexivity.
Defined.

End NormalizerForward.

(** ** The vector input *)

Section VectorInputProperties.
Local Open Scope R_scope.

Lemma disabled_call (c : VectorInputCall) (self : VectorInput) :
  normalizer self = None -> call_state c self = self.
Proof.
  intros H. destruct c; simpl;
    unfold VectorInput_forward, copy_normalization, update_normalization;
    now rewrite H.
Qed.

(** X10.  A vector input built with [normalize = False] never acquires a
    normalizer, whatever is called on it: after any sequence of calls its
    [forward] returns the batch it is given, unchanged and whatever its
    shape, and [update_normalization] and [copy_normalization] return without
    effect. *)
Theorem disabled_vector_input_is_inert (input_size : nat) (calls : list VectorInputCall) :
  let self := run_calls calls (VectorInput_init input_size false) in
  self = VectorInput_init input_size false
  /\ (forall inputs, VectorInput_forward inputs self = (self, Ok inputs))
  /\ (forall inputs, update_normalization inputs self = (self, Ok tt))
  /\ (forall other, copy_normalization other self = (self, Ok tt)).
Proof.
  cbv zeta.
  assert (E : run_calls calls (VectorInput_init input_size false)
              = VectorInput_init input_size false).
  { unfold run_calls. induction calls as [|c cs IH]; simpl; [reflexivity|].
    now rewrite disabled_call. }
  rewrite E. repeat split.
Qed.

(** X11.  [copy_normalization] between two vector inputs that both own a
    normalizer, with buffers of the same lengths, returns and leaves [self]
    equal to the other input; when either of the two owns no normalizer it
    returns and changes nothing. *)
Theorem copy_normalization_synchronizes (self other : VectorInput) :
  (forall nz onz,
      normalizer self = Some nz -> normalizer other = Some onz ->
      length (running_mean onz) = length (running_mean nz) ->
      length (running_variance onz) = length (running_variance nz) ->
      copy_normalization other self = (other, Ok tt)
      /\ forall inputs,
           snd (VectorInput_forward inputs (fst (copy_normalization other self)))
           = snd (VectorInput_forward inputs other))
  /\ (normalizer self = None \/ normalizer other = None ->
      copy_normalization other self = (self, Ok tt)).
Proof.
  split.
  - intros nz onz Hs Ho Hm Hv.
    assert (E : copy_normalization other self = (other, Ok tt)).
    { unfold copy_normalization, on_normalizer. rewrite Hs, Ho.
      destruct (copy_from_sync_run nz onz Hm Hv) as [E1 E2].
      rewrite E1, E2. destruct other as [o]. simpl in Ho. now subst o. }
    split; [exact E|]. intros inputs. now rewrite E.
  - intros [H | H]; unfold copy_normalization; rewrite H;
      [reflexivity | now destruct (normalizer self)].
Qed.

Lemma copy_normalization_synchronizes_witness :
  let self := VectorInput_init 1%nat true in
  let other := fst (update_normalization {| ncols := 1%nat; rows := [[2]; [4]] |}
                      (VectorInput_init 1%nat true)) in
  copy_normalization other self = (other, Ok tt)
  /\ copy_normalization (VectorInput_init 1%nat false) self = (self, Ok tt).
Proof.
  intros self other.
  destruct (copy_normalization_synchronizes self other) as [H _].
  destruct (copy_normalization_synchronizes self (VectorInput_init 1%nat false)) as [_ H'].
  split.
  - apply (H (Normalizer_init 1%nat)
             (after (update {| ncols := 1%nat; rows := [[2]; [4]] |}) (Normalizer_init 1%nat)));
      reflexivity.
  - apply H'. right. reflexivity.
Defined.




End VectorInputProperties.

(** ** Shape arithmetic, further *)

Section ShapeFurther.
Local Open Scope Z_scope.







End ShapeFurther.

(** ** [forward] of the visual encoders *)

Section EncoderForwardProperties.
Local Open Scope Z_scope.

Ltac div_lia := Z.div_mod_to_equations; lia.

Lemma conv2d_axis_ok (size k stride padding : Z) :
  0 < stride -> 0 < (size + 2 * padding - (k - 1) - 1) / stride + 1 ->
  conv2d_axis size k stride padding
  = Ok ((size + 2 * padding - (k - 1) - 1) / stride + 1).
Proof.
  intros Hs Hout. unfold conv2d_axis.
  destruct (Z.leb_spec stride 0); [lia|].
  destruct (Z.leb_spec ((size + 2 * padding - (k - 1) - 1) / stride + 1) 0);
    [lia | reflexivity].
Qed.
















Lemma modules_shape_app (a b : list Module_) (x : Shape) :
  modules_shape (a ++ b) x = (y <- modules_shape a x ;; modules_shape b y)%result.
Proof.
  revert x. induction a as [|m a IH]; intros x; simpl; [reflexivity|].
  destruct (module_shape m x) as [y | e]; simpl; [apply IH | reflexivity].
Qed.

Lemma ResNetBlock_forward_same (channel n h w : Z) :
  0 < h -> 0 < w ->
  ResNetBlock_forward_shape (ResNetBlock_init channel) [n; channel; h; w]
  = Ok [n; channel; h; w].
Proof.
  intros Hh Hw.
  destruct (ResNetBlock_forward_cases channel [n; channel; h; w]) as [E | E];
    [exact E|].
  exfalso. revert E. unfold ResNetBlock_forward_shape, ResNetBlock_init.
  cbn [layers sequential_shape layer_shape rbind conv2d_shape fst snd].
  rewrite Z.eqb_refl, !conv2d_axis_same by assumption.
  cbn [rbind conv2d_shape fst snd].
  rewrite Z.eqb_refl, !conv2d_axis_same by assumption.
  cbn [rbind]. rewrite broadcast_shapes_same. discriminate.
Qed.

Lemma pool_axis_ok (x : Z) :
  3 <= x -> conv2d_axis x 3 2 0 = Ok ((x - 3) / 2 + 1) /\ 0 < (x - 3) / 2 + 1.
Proof.
  intros Hx.
  assert (E : (x - 3) / 2 + 1 = (x + 2 * 0 - (3 - 1) - 1) / 2 + 1) by (do 2 f_equal; lia).
  assert (P : 0 < (x - 3) / 2 + 1) by div_lia.
  split; [| exact P]. rewrite E. apply conv2d_axis_ok; [lia | now rewrite <- E].
Qed.

(** What the constructor's loop maintains: the layers appended so far map
    the input to the channel count, height and width it tracks. *)
Lemma resnet_stage_tracks_shape (st : ResNetLoop) (channel : Z) (x : Shape) (n : Z) :
  modules_shape (loop_layers st) x
  = Ok [n; loop_last_channel st; loop_height st; loop_width st] ->
  3 <= loop_height st -> 3 <= loop_width st ->
  let st' := resnet_stage st channel in
  modules_shape (loop_layers st') x
  = Ok [n; loop_last_channel st'; loop_height st'; loop_width st']
  /\ loop_height st' = (loop_height st - 3) / 2 + 1
  /\ loop_width st' = (loop_width st - 3) / 2 + 1.
Proof.
  intros Hx Hh Hw. cbv zeta. unfold resnet_stage, pool_out_shape.
  cbn [loop_layers loop_last_channel loop_height loop_width fst snd].
  split; [| split; reflexivity].
  rewrite modules_shape_app, Hx. cbn [rbind].
  destruct (pool_axis_ok (loop_height st) Hh) as [E1 P1].
  destruct (pool_axis_ok (loop_width st) Hw) as [E2 P2].
  unfold n_blocks.
  cbn [app repeat modules_shape module_shape layer_shape conv2d_shape
         maxpool2d_shape fst snd rbind].
  rewrite Z.eqb_refl, !conv2d_axis_same by lia.
  cbn [rbind maxpool2d_shape fst snd].
  rewrite E1, E2. cbn [rbind].
  rewrite ResNetBlock_forward_same by assumption. cbn [rbind].
  rewrite ResNetBlock_forward_same by assumption. reflexivity.
Qed.

Lemma view_batch_flat (n ch a b : Z) :
  0 < n -> view_batch [n; ch; a; b] n = Ok [n; ch * a * b].
Proof.
  intros Hn. unfold view_batch.
  destruct (Z.leb_spec n 0); [lia|].
  assert (E : numel [n; ch; a; b] = (ch * a * b) * n) by (unfold numel; simpl; ring).
  rewrite E, Z_mod_mult, Z_div_mult by lia. reflexivity.
Qed.

(** X18.  For a height and a width of at least 15 the shape arithmetic of
    [ResNetVisualEncoder.__init__] and the layers it builds agree: [forward]
    on a batch [N, C, height, width] with [N > 0] and the channel count the
    encoder was built for returns a tensor of shape [N, output_size()]. *)
Theorem resnet_forward_matches_output_size (height width initial_channels n : Z) :
  0 < n -> 15 <= height -> 15 <= width ->
  ResNetVisualEncoder_forward_shape
    (ResNetVisualEncoder_init height width initial_channels)
    [n; initial_channels; height; width]
  = Returns [n; ResNetVisualEncoder_output_size
                  (ResNetVisualEncoder_init height width initial_channels)].
Proof.
  intros Hn Hh Hw.
  set (x := [n; initial_channels; height; width]).
  set (st0 := {| loop_layers := []; loop_last_channel := initial_channels;
                 loop_height := height; loop_width := width |}).
  assert (H0 : modules_shape (loop_layers st0) x
               = Ok [n; loop_last_channel st0; loop_height st0; loop_width st0])
    by reflexivity.
  destruct (resnet_stage_tracks_shape st0 16 x n H0) as [H1 [Hh1 Hw1]];
    [simpl; lia | simpl; lia |].
  set (st1 := resnet_stage st0 16) in *.
  change (loop_height st0) with height in Hh1.
  change (loop_width st0) with width in Hw1.
  destruct (resnet_stage_tracks_shape st1 32 x n H1) as [H2 [Hh2 Hw2]];
    [rewrite Hh1; div_lia | rewrite Hw1; div_lia |].
  set (st2 := resnet_stage st1 32) in *.
  destruct (resnet_stage_tracks_shape st2 32 x n H2) as [H3 [Hh3 Hw3]];
    [rewrite Hh2, Hh1; div_lia | rewrite Hw2, Hw1; div_lia |].
  set (st3 := resnet_stage st2 32) in *.
  unfold ResNetVisualEncoder_forward_shape, ResNetVisualEncoder_output_size,
    ResNetVisualEncoder_init.
  cbn [resnet_sequential resnet_output_size n_channels fold_left last].
  fold st0. fold st1. fold st2. fold st3. fold x.
  unfold x at 1. rewrite modules_shape_app, H3. cbn [rbind modules_shape module_shape layer_shape].
  rewrite view_batch_flat by assumption. reflexivity.
Qed.

Lemma resnet_forward_matches_output_size_witness :
  ResNetVisualEncoder_forward_shape (ResNetVisualEncoder_init 84 84 3) [5; 3; 84; 84]
  = Returns [5; ResNetVisualEncoder_output_size (ResNetVisualEncoder_init 84 84 3)].
Proof.
  apply (resnet_forward_matches_output_size 84 84 3 5); lia.
Defined.

End EncoderForwardProperties.

Section FeedOrder.
Local Open Scope R_scope.

Lemma concat_rows_permutation (chunks chunks' : list Tensor2) :
  Permutation chunks chunks' ->
  Permutation (concat (map rows chunks)) (concat (map rows chunks')).
Proof.
  intros H. rewrite <- !flat_map_concat_map. now apply Permutation_flat_map.
Qed.

(** X19.  The order in which batches are fed does not matter: from a state
    satisfying the invariant, feeding batches of [d] columns one call each in
    one order or in another order leaves the same state. *)
Theorem feed_order_invariant (d : nat) (self : Normalizer) (chunks chunks' : list Tensor2) :
  invariant d self ->
  Forall (fun c => wf_tensor c /\ ncols c = d) chunks ->
  Permutation chunks chunks' ->
  feed chunks self = feed chunks' self.
Proof.
  intros Hinv Hcs HP.
  assert (Hcs' : Forall (fun c => wf_tensor c /\ ncols c = d) chunks')
    by (eapply Permutation_Forall; eassumption).
  rewrite (feed_cat_all 0 d chunks self Hinv Hcs).
  rewrite (feed_cat_all 0 d chunks' self Hinv Hcs').
  destruct Hinv as [_ [Hm [Hv _]]].
  pose proof (concat_rows_permutation chunks chunks' HP) as HPr.
  unfold after. f_equal.
  apply (update_eq_from_columns d); auto using cat_all_wf.
  - unfold size0, cat_all. simpl. now apply Permutation_length.
  - intros j Hj. unfold cat_all. simpl rows.
    assert (HPj : Permutation (col j (concat (map rows chunks)))
                    (col j (concat (map rows chunks'))))
      by (now apply Permutation_map).
    split; [now apply newMean_permutation | now apply newSumSqDev_permutation].
Qed.

Lemma feed_order_invariant_witness :
  let a := {| ncols := 1%nat; rows := [[2]] |} in
  let b := {| ncols := 1%nat; rows := [[4]; [9]] |} in
  feed [a; b] (Normalizer_init 1%nat) = feed [b; a] (Normalizer_init 1%nat).
Proof.
  intros a b.
  apply (feed_order_invariant 1%nat (Normalizer_init 1%nat) [a; b] [b; a]).
  - unfold invariant, invariant_from, Normalizer_init. simpl.
    repeat split; try lia. repeat constructor. lra.
  - repeat constructor.
  - apply perm_swap.
Defined.

End FeedOrder.
